(** * InstanceList: the instance collection of libmultimc

    A shallow embedding of [libmultimc/src/instancelist.cpp] together with
    the loader interface of [libmultimc/include/instanceloader.h].

    The C++ methods become functions that take the [InstanceList] object
    and return its new value together with the [Event]s they caused, in
    the order they happened: signals emitted, lines written with
    [qDebug]/[qWarning] (after their printf step), and calls made to the
    instance loader.  Whatever
    the code asks of Qt, of the file system or of the loader is read from
    an [Env] record, one field per call the source makes. *)

From Stdlib Require QArith.
From Stdlib Require Import ZArith Ascii OrdersEx.
From stdpp Require Import base gmap strings list pretty sorting.

Local Open Scope string_scope.
Local Open Scope list_scope.
Local Open Scope Z_scope.

(** ** Qt JSON values *)

(** [QJsonValue].  A [QJsonObject] is kept as the sequence of its
    members in the order its iterator visits them. *)
#[local] Unset Elimination Schemes.
Inductive QJsonValue :=
| JNull
| JBool (b : bool)
| JDouble (d : QArith_base.Q)
| JString (s : string)
| JArray (a : list QJsonValue)
| JObject (o : list (string * QJsonValue))
| JUndefined.
#[local] Set Elimination Schemes.

Abbreviation QJsonArray := (list QJsonValue).
Abbreviation QJsonObject := (list (string * QJsonValue)).

(** [QJsonValue::isObject()], [isArray()], [isString()]. *)
Definition isObject (v : QJsonValue) : bool :=
  match v with JObject _ => true | _ => false end.

Definition isArray (v : QJsonValue) : bool :=
  match v with JArray _ => true | _ => false end.

Definition isString (v : QJsonValue) : bool :=
  match v with JString _ => true | _ => false end.

(** [QJsonValue::toObject()]: the object, or an empty one. *)
Definition toObject (v : QJsonValue) : QJsonObject :=
  match v with JObject o => o | _ => [] end.

(** [QJsonValue::toArray()]: the array, or an empty one. *)
Definition toArray (v : QJsonValue) : QJsonArray :=
  match v with JArray a => a | _ => [] end.

(** [QJsonValue::toString()]: the string, or a null [QString] (which
    compares equal to the empty string) for every other type. *)
Definition toString (v : QJsonValue) : string :=
  match v with JString s => s | _ => EmptyString end.

(** [QJsonObject::value(key)]: [Undefined] when the key is absent. *)
Fixpoint value (o : QJsonObject) (key : string) : QJsonValue :=
  match o with
  | [] => JUndefined
  | (k, v) :: o' => if String.eqb k key then v else value o' key
  end.

(** How Qt's parser fills a [QJsonObject] while it reads the members of
    one object literal: every member is placed at its position in
    ascending key order, and a member whose key is already present takes
    the place of the earlier one. *)
Fixpoint QJsonObject_insert (k : string) (v : QJsonValue) (o : QJsonObject)
  : QJsonObject :=
  match o with
  | [] => [(k, v)]
  | (k', v') :: o' =>
      match String_as_OT.compare k k' with
      | Lt => (k, v) :: o
      | Eq => (k, v) :: o'
      | Gt => (k', v') :: QJsonObject_insert k v o'
      end
  end.

(** The object built from the members of a literal, given in file order. *)
Definition QJsonObject_fromMembers (members : list (string * QJsonValue))
  : QJsonObject :=
  fold_left (fun o m => QJsonObject_insert m.1 m.2 o) members [].

(** [QJsonDocument]: an object, an array, or nothing. *)
Inductive QJsonDocument :=
| DocObject (o : QJsonObject)
| DocArray (a : QJsonArray)
| DocNull.

Definition QJsonDocument_isObject (d : QJsonDocument) : bool :=
  match d with DocObject _ => true | _ => false end.

Definition QJsonDocument_object (d : QJsonDocument) : QJsonObject :=
  match d with DocObject o => o | _ => [] end.

(** Result of [QJsonDocument::fromJson(bytes, &error)]. *)
Inductive JsonParse :=
| ParseFailed (errorString : string) (offset : Z)
| Parsed (jsonDoc : QJsonDocument).

(** ** Instances and the loader *)

(** Modelled from the spec: the [Instance] class of [include/instance.h],
    which is not part of the sources at hand.  The spec gives an instance
    an identifier, a display name, a mutable group name and a source
    directory; [inst_obj] stands for the address of the C++ object, which
    is what [propertiesChanged] compares. *)
Record Instance := {
  inst_obj : positive;
  inst_id : string;
  inst_name : string;
  inst_group : string;
  inst_rootDir : string
}.

(** [Instance::setGroup]. *)
Definition setGroup (g : string) (i : Instance) : Instance :=
  {| inst_obj := inst_obj i; inst_id := inst_id i; inst_name := inst_name i;
     inst_group := g; inst_rootDir := inst_rootDir i |}.

(** [InstancePtr], a [QSharedPointer<Instance>]; also used for the raw
    [Instance *] the loader fills in.  [None] is the null pointer. *)
Abbreviation InstancePtr := (option Instance).

(** [InstanceLoader::InstLoadError]. *)
Inductive InstLoadError :=
| NoLoadError
| UnknownLoadError
| NotAnInstance.

(** The enumerators' values: [NoLoadError = 0] and then counting up. *)
Definition InstLoadError_value (e : InstLoadError) : Z :=
  match e with
  | NoLoadError => 0
  | UnknownLoadError => 1
  | NotAnInstance => 2
  end.

Definition InstLoadError_eqb (a b : InstLoadError) : bool :=
  InstLoadError_value a =? InstLoadError_value b.

(** ** The environment *)

(** One field for each thing the code asks of the outside.  The answers
    are taken not to change while one method runs. *)
Record Env := {
  (** [QFileInfo(path).exists()] *)
  QFileInfo_exists : string -> bool;
  (** [QFile::open(ReadOnly)] followed by [QTextStream::readAll()];
      [None] when the file cannot be opened. *)
  QFile_readAll : string -> option string;
  (** [QJsonDocument::fromJson(jsonStr.toUtf8(), &error)] *)
  QJsonDocument_fromJson : string -> JsonParse;
  (** [value.toVariant().toInt()] *)
  QVariant_toInt : QJsonValue -> Z;
  (** the paths [QDirIterator(QDir(path))] yields, in its order *)
  QDirIterator_entries : string -> list string;
  (** [PathCombine] of [pathutils.h] *)
  PathCombine : string -> string -> string;
  (** [QFileInfo(path).baseName()] *)
  QFileInfo_baseName : string -> string;
  (** [InstanceLoader::get().loadInstance(instPtr, instDir)] with
      [instPtr] null before the call: the error code and [instPtr]
      after it. *)
  loadInstance : string -> InstLoadError * InstancePtr
}.

(** ** Observable events *)

(** The signals of [InstanceList]. *)
Inductive Signal :=
| invalidated
| instanceAdded (index : Z)
| instanceChanged (index : Z).

Inductive QtMsgType := QtDebugMsg | QtWarningMsg.

(** [Log level line]: one call of [qDebug] or [qWarning]; [line] is what
    the call writes, [None] when the source does not determine it. *)
Inductive Event :=
| Emit (s : Signal)
| Log (level : QtMsgType) (line : option string)
| LoaderCall (instDir : string).

(** The printf step of [qDebug(format)] and [qWarning(format)], which
    the source calls with the built text as the format and with no
    further argument: every character is written as it stands, except
    that the pair [%%] is written as one [%].  Any other [%] asks for an
    argument that the call does not pass; what is written then is not
    determined by the source, and the result is [None]. *)
Fixpoint printed (format : string) : option string :=
  match format with
  | EmptyString => Some EmptyString
  | String c rest =>
      if Ascii.eqb c "%"%char
      then match rest with
           | String c' rest' =>
               if Ascii.eqb c' "%"%char
               then String "%"%char <$> printed rest'
               else None
           | EmptyString => None
           end
      else String c <$> printed rest
  end.

(** [qDebug(format)] and [qWarning(format)]: the text the source builds
    with [QString::arg] is the format; the event holds the line it is
    printed as. *)
Definition qDebug (format : string) : Event :=
  Log QtDebugMsg (printed format).
Definition qWarning (format : string) : Event :=
  Log QtWarningMsg (printed format).

(** ** The collection *)

Record InstanceList := {
  m_instDir : string;
  m_instances : list InstancePtr
}.

Definition GROUP_FILE_FORMAT_VERSION : Z := 1.

(** The constructor: [m_instDir("instances")]. *)
Definition InstanceList_new (instDir : string) : InstanceList :=
  {| m_instDir := "instances"; m_instances := [] |}.

(** Modelled from the spec: [count()] is declared in
    [include/instancelist.h], which is not part of the sources at hand;
    the spec's [count] is the number of instances in the sequence.  A
    [QList] holds fewer than 2^31 elements, so the [int] does not wrap. *)
Definition count (self : InstanceList) : Z :=
  Z.of_nat (length (m_instances self)).

(** [InstanceList::clear]. *)
Definition clear (self : InstanceList) : InstanceList * list Event :=
  ({| m_instDir := m_instDir self; m_instances := [] |}, [Emit invalidated]).

(** [InstanceList::add]: the returned index, the collection, the events. *)
Definition add (t : InstancePtr) (self : InstanceList)
  : Z * InstanceList * list Event :=
  let self' := {| m_instDir := m_instDir self;
                  m_instances := m_instances self ++ [t] |} in
  (count self' - 1, self', [Emit (instanceAdded (count self' - 1))]).

(** ** Lookup by identifier *)

(** What a call comes to: a returned value, or the dereference of a null
    pointer, where the C++ program has no defined behaviour. *)
Inductive Outcome (A : Type) :=
| Returns (a : A)
| NullDereference.
Arguments Returns {A} a.
Arguments NullDereference {A}.

(** A [QListIterator]: the items already passed (the nearest first) and
    the items still ahead. *)
Record QListIterator := {
  passed : list InstancePtr;
  ahead : list InstancePtr
}.

Definition QListIterator_new (l : list InstancePtr) : QListIterator :=
  {| passed := []; ahead := l |}.

(** [inst->id()] *)
Definition deref_id (inst : InstancePtr) : Outcome string :=
  match inst with
  | Some i => Returns (inst_id i)
  | None => NullDereference
  end.

(** The [while] loop of [getInstanceById]: [inst] and [iter] when the
    loop is left.  It recurses on the items still ahead. *)
Fixpoint getInstanceById_loop (passed ahead : list InstancePtr)
    (inst : InstancePtr) (instId : string)
  : Outcome (InstancePtr * QListIterator) :=
  match ahead with
  | [] => Returns (inst, {| passed := passed; ahead := [] |})
  | x :: ahead' =>
      (* inst = iter.next(); *)
      match deref_id x with
      | NullDereference => NullDereference
      | Returns i =>
          if String.eqb i instId
          then Returns (x, {| passed := x :: passed; ahead := ahead' |})
          else getInstanceById_loop (x :: passed) ahead' x instId
      end
  end.

(** [iter.peekPrevious()]; calling it with nothing passed is undefined. *)
Definition peekPrevious (iter : QListIterator) : Outcome InstancePtr :=
  match passed iter with
  | x :: _ => Returns x
  | [] => NullDereference
  end.

(** [InstanceList::getInstanceById].  [inst] starts as a null pointer. *)
Definition getInstanceById (self : InstanceList) (instId : string)
  : Outcome InstancePtr :=
  let iter := QListIterator_new (m_instances self) in
  match getInstanceById_loop (passed iter) (ahead iter) None instId with
  | NullDereference => NullDereference
  | Returns (inst, iter') =>
      match deref_id inst with
      | NullDereference => NullDereference
      | Returns i =>
          if negb (String.eqb i instId)
          then Returns None
          else peekPrevious iter'
      end
  end.

(** [InstanceList::propertiesChanged]: the [for] loop from index [i]
    over the rest of [m_instances]; [inst] is the raw pointer it is
    called with, an object's address or null. *)
Fixpoint propertiesChanged_loop (inst : option positive) (i : Z)
    (rest : list InstancePtr) : list Event :=
  match rest with
  | [] => []
  | p :: rest' =>
      if bool_decide (inst = inst_obj <$> p)
      then [Emit (instanceChanged i)]
      else propertiesChanged_loop inst (i + 1) rest'
  end.

Definition propertiesChanged (inst : option positive) (self : InstanceList)
  : list Event :=
  propertiesChanged_loop inst 0 (m_instances self).

(** ** Reading the group file *)

(** The inner [for] loop of [loadGroupList]: for every element [e] of
    the array, [groupMap[e.toString()] = groupName]. *)
Definition loadGroupList_instances (groupName : string)
    (instancesArray : QJsonArray) (groupMap : gmap string string)
  : gmap string string :=
  fold_left (fun m v => <[toString v := groupName]> m) instancesArray groupMap.

(** The body of the outer [for] loop, for the member [iter] points at. *)
Definition loadGroupList_group (iter : string * QJsonValue)
    (st : gmap string string * list Event) : gmap string string * list Event :=
  let groupName := iter.1 in
  if negb (isObject iter.2) then
    (st.1, st.2 ++ [qWarning ("Group '" +:+ groupName +:+
                              "' in the group list should be an object.")])
  else
    let groupObj := toObject iter.2 in
    if negb (isArray (value groupObj "instances")) then
      (st.1, st.2 ++ [qWarning ("Group '" +:+ groupName +:+
                                "' in the group list is invalid. " +:+
                                "It should contain an array " +:+
                                "called 'instances'.")])
    else
      let instancesArray := toArray (value groupObj "instances") in
      (loadGroupList_instances groupName instancesArray st.1, st.2).

(** The outer [for] loop over [groupMapping]. *)
Definition loadGroupList_groups (groupMapping : QJsonObject)
    (st : gmap string string * list Event) : gmap string string * list Event :=
  fold_left (fun st iter => loadGroupList_group iter st) groupMapping st.

(** [InstanceList::loadGroupList]: [groupMap] as the call leaves it, and
    what was logged. *)
Definition loadGroupList (env : Env) (self : InstanceList)
    (groupMap : gmap string string) : gmap string string * list Event :=
  let groupFileName := m_instDir self +:+ "/instgroups.json" in
  if negb (QFileInfo_exists env groupFileName) then (groupMap, [])
  else
    match QFile_readAll env groupFileName with
    | None => (groupMap, [qDebug "Failed to read instance group file."])
    | Some jsonStr =>
        match QJsonDocument_fromJson env jsonStr with
        | ParseFailed errorString offset =>
            (groupMap,
             [qWarning ("Failed to parse instance group file: " +:+ errorString
                        +:+ " at offset " +:+ pretty offset)])
        | Parsed jsonDoc =>
            if negb (QJsonDocument_isObject jsonDoc) then
              (groupMap,
               [qWarning "Invalid group file. Root entry should be an object."])
            else
              let rootObj := QJsonDocument_object jsonDoc in
              if negb (QVariant_toInt env (value rootObj "formatVersion")
                       =? GROUP_FILE_FORMAT_VERSION)
              then (groupMap, [])
              else if negb (isObject (value rootObj "groups")) then
                (groupMap,
                 [qWarning
                    "Invalid group list JSON: 'groups' should be an object."])
              else
                let groupMapping := toObject (value rootObj "groups") in
                loadGroupList_groups groupMapping (groupMap, [])
        end
    end.

(** ** Scanning the instance directory *)

(** [InstanceList::InstListError]; [loadList] returns [NoError] and no
    other enumerator occurs in the source. *)
Inductive InstListError := NoError.

(** Lines 177-181 of [loadList]: the group found for the instance's id,
    if there is one, is set on it. *)
Definition assignGroup (groupMap : gmap string string) (inst : Instance)
  : Instance :=
  match groupMap !! inst_id inst with
  | Some g => setGroup g inst
  | None => inst
  end.

(** The body of the [while] loop of [loadList] for [subDir = iter.next()],
    acting on [m_instances] and on the events so far.  [setParent] and
    [connect] only wire the Qt object and are left out. *)
Definition loadList_entry (env : Env) (groupMap : gmap string string)
    (subDir : string) (st : list InstancePtr * list Event)
  : list InstancePtr * list Event :=
  if negb (QFileInfo_exists env (PathCombine env subDir "instance.cfg"))
  then st
  else
    let error := (loadInstance env subDir).1 in
    let instPtr := (loadInstance env subDir).2 in
    let events := st.2 ++ [LoaderCall subDir] in
    if negb (InstLoadError_eqb error NoLoadError) &&
       negb (InstLoadError_eqb error NotAnInstance)
    then
      let errorMsg := "Failed to load instance " +:+
                      QFileInfo_baseName env subDir +:+ ": " in
      let errorMsg := errorMsg +:+ "Unknown instance loader error " +:+
                      pretty (InstLoadError_value error) in
      (st.1, events ++ [qDebug errorMsg])
    else
      match instPtr with
      | None =>
          (st.1, events ++ [qDebug ("Error loading instance " +:+
                                    QFileInfo_baseName env subDir +:+
                                    ". Instance loader returned null.")])
      | Some i =>
          let inst := assignGroup groupMap i in
          (st.1 ++ [Some inst],
           events ++ [qDebug ("Loaded instance " +:+ inst_name inst)])
      end.

(** The [while (iter.hasNext())] loop over the entries of [m_instDir]. *)
Definition loadList_scan (env : Env) (groupMap : gmap string string)
    (entries : list string) (st : list InstancePtr * list Event)
  : list InstancePtr * list Event :=
  fold_left (fun st subDir => loadList_entry env groupMap subDir st) entries st.

(** [InstanceList::loadList]: the returned code, the collection and the
    events of the call. *)
Definition loadList (env : Env) (self : InstanceList)
  : InstListError * InstanceList * list Event :=
  let r := loadGroupList env self ∅ in
  let groupMap := r.1 in
  (* m_instances.clear(); *)
  let st := loadList_scan env groupMap
              (QDirIterator_entries env (m_instDir self)) ([], r.2) in
  (NoError,
   {| m_instDir := m_instDir self; m_instances := st.1 |},
   st.2 ++ [Emit invalidated]).

(** ** Notions used in the statements *)

(** Whether a pointer is non-null and its instance has the given id. *)
Definition hasId (instId : string) (p : InstancePtr) : bool :=
  match p with
  | Some i => String.eqb (inst_id i) instId
  | None => false
  end.

(** The array a group's member value holds under "instances"; empty when
    the value is no object or has no such array. *)
Definition instancesOf (v : QJsonValue) : QJsonArray :=
  toArray (value (toObject v) "instances").

(** The two checks the outer loop makes on a group before it reads it. *)
Definition wellFormedGroup (v : QJsonValue) : bool :=
  isObject v && isArray (value (toObject v) "instances").

(** The assignments of a group and of a whole group object, in the order
    in which the two loops make them. *)
Definition groupPairs (iter : string * QJsonValue) : list (string * string) :=
  (fun e => (toString e, iter.1)) <$> instancesOf iter.2.

Definition declaredPairs (groupMapping : QJsonObject)
  : list (string * string) :=
  groupMapping ≫= groupPairs.

(** [groupMap[k] = v] for a list of pairs, one after the other. *)
Definition assignAll (pairs : list (string * string))
    (groupMap : gmap string string) : gmap string string :=
  fold_left (fun m p => <[p.1 := p.2]> m) pairs groupMap.

(** The file is there, can be read and parses to an object. *)
Definition groupFileHolds (env : Env) (self : InstanceList)
    (rootObj : QJsonObject) : Prop :=
  QFileInfo_exists env (m_instDir self +:+ "/instgroups.json") = true /\
  exists jsonStr,
    QFile_readAll env (m_instDir self +:+ "/instgroups.json") = Some jsonStr /\
    QJsonDocument_fromJson env jsonStr = Parsed (DocObject rootObj).

(** Moreover the version check passes and "groups" is an object. *)
Definition validGroupFile (env : Env) (self : InstanceList)
    (groupMapping : QJsonObject) : Prop :=
  exists rootObj,
    groupFileHolds env self rootObj /\
    QVariant_toInt env (value rootObj "formatVersion")
      = GROUP_FILE_FORMAT_VERSION /\
    value rootObj "groups" = JObject groupMapping.

(** The order of the members of a [QJsonObject]: by key. *)
Definition keyBefore (a b : string * QJsonValue) : Prop :=
  String_as_OT.lt a.1 b.1.

(** The loop of Qt's parser over the members of an object literal,
    from any object built so far. *)
Definition insertAll (members : list (string * QJsonValue)) (o : QJsonObject)
  : QJsonObject :=
  fold_left (fun o m => QJsonObject_insert m.1 m.2 o) members o.

(** Whether the candidate holds the marker file, as [loadList] tests it. *)
Definition hasMarker (env : Env) (subDir : string) : bool :=
  QFileInfo_exists env (PathCombine env subDir "instance.cfg").

(** The instance the scan takes over from a candidate, if any: the
    marker is there, the loader's code is [NoLoadError] or
    [NotAnInstance], and the pointer it filled in is not null. *)
Definition adopted (env : Env) (subDir : string) : InstancePtr :=
  if hasMarker env subDir &&
     (InstLoadError_eqb (loadInstance env subDir).1 NoLoadError ||
      InstLoadError_eqb (loadInstance env subDir).1 NotAnInstance)
  then (loadInstance env subDir).2
  else None.

(** The directories the loader was called with, in order. *)
Definition loaderCalls (events : list Event) : list string :=
  omap (fun e => match e with LoaderCall d => Some d | _ => None end) events.

(** The ways in which [loadGroupList] gives up on the whole file, each
    with the logging calls the source makes on that path. *)
Inductive GroupFileDefect (env : Env) (self : InstanceList)
  : list Event -> Prop :=
| FileAbsent :
    QFileInfo_exists env (m_instDir self +:+ "/instgroups.json") = false ->
    GroupFileDefect env self []
| FileUnreadable :
    QFileInfo_exists env (m_instDir self +:+ "/instgroups.json") = true ->
    QFile_readAll env (m_instDir self +:+ "/instgroups.json") = None ->
    GroupFileDefect env self [qDebug "Failed to read instance group file."]
| NotJson jsonStr errorString offset :
    QFileInfo_exists env (m_instDir self +:+ "/instgroups.json") = true ->
    QFile_readAll env (m_instDir self +:+ "/instgroups.json") = Some jsonStr ->
    QJsonDocument_fromJson env jsonStr = ParseFailed errorString offset ->
    GroupFileDefect env self
      [qWarning ("Failed to parse instance group file: " +:+ errorString
                 +:+ " at offset " +:+ pretty offset)]
| RootNotObject jsonStr jsonDoc :
    QFileInfo_exists env (m_instDir self +:+ "/instgroups.json") = true ->
    QFile_readAll env (m_instDir self +:+ "/instgroups.json") = Some jsonStr ->
    QJsonDocument_fromJson env jsonStr = Parsed jsonDoc ->
    QJsonDocument_isObject jsonDoc = false ->
    GroupFileDefect env self
      [qWarning "Invalid group file. Root entry should be an object."]
| VersionMismatch rootObj :
    groupFileHolds env self rootObj ->
    QVariant_toInt env (value rootObj "formatVersion")
      <> GROUP_FILE_FORMAT_VERSION ->
    GroupFileDefect env self []
| GroupsNotObject rootObj :
    groupFileHolds env self rootObj ->
    QVariant_toInt env (value rootObj "formatVersion")
      = GROUP_FILE_FORMAT_VERSION ->
    isObject (value rootObj "groups") = false ->
    GroupFileDefect env self
      [qWarning "Invalid group list JSON: 'groups' should be an object."].

(** ** Sample environments

    Small concrete worlds on which the functions are run: a group file
    given by what the parser makes of it (or no file at all), and the
    entries below the directory "instances", each with its marker file
    present or not and with the loader's answer. *)

Record SampleEntry := {
  entry_path : string;
  entry_marker : bool;
  entry_load : InstLoadError * InstancePtr
}.

Fixpoint hasSlash (s : string) : bool :=
  match s with
  | EmptyString => false
  | String c s' => Ascii.eqb c "/"%char || hasSlash s'
  end.

Fixpoint fileName (path : string) : string :=
  match path with
  | EmptyString => EmptyString
  | String c path' => if hasSlash path then fileName path' else path
  end.

Fixpoint upToDot (s : string) : string :=
  match s with
  | EmptyString => EmptyString
  | String c s' =>
      if Ascii.eqb c "."%char then EmptyString else String c (upToDot s')
  end.

(** Rounding to the nearest integer, halves away from zero. *)
Definition roundQ (d : QArith_base.Q) : Z :=
  let n := QArith_base.Qnum d in
  let k := Z.pos (QArith_base.Qden d) in
  if 0 <=? n then (2 * n + k) / (2 * k) else - ((2 * - n + k) / (2 * k)).

Definition sampleEnv (groupFile : option JsonParse)
    (entries : list SampleEntry) : Env :=
  {| QFileInfo_exists path :=
       if String.eqb path "instances/instgroups.json"
       then bool_decide (is_Some groupFile)
       else existsb
              (fun e => entry_marker e &&
                        String.eqb path (entry_path e +:+ "/instance.cfg"))
              entries;
     QFile_readAll path :=
       if String.eqb path "instances/instgroups.json"
       then (fun _ => "contents of instgroups.json") <$> groupFile
       else None;
     QJsonDocument_fromJson jsonStr :=
       default (ParseFailed "illegal value" 0) groupFile;
     QVariant_toInt v :=
       match v with
       | JDouble d => roundQ d
       | JBool true => 1
       | _ => 0
       end;
     QDirIterator_entries path :=
       if String.eqb path "instances" then entry_path <$> entries else [];
     PathCombine path1 path2 := path1 +:+ "/" +:+ path2;
     QFileInfo_baseName path := upToDot (fileName path);
     loadInstance instDir :=
       default (UnknownLoadError, None)
         (entry_load <$>
            List.find (fun e => String.eqb (entry_path e) instDir) entries)
  |}.

(** A group file [{ "formatVersion": version, "groups": groups }]. *)
Definition sampleGroupFile (version : QJsonValue) (groups : QJsonValue)
  : JsonParse :=
  Parsed (DocObject [("formatVersion", version); ("groups", groups)]).

(** A group [{ "instances": [...] }]. *)
Definition sampleGroup (instancesArray : QJsonArray) : QJsonValue :=
  JObject [("instances", JArray instancesArray)].

Definition version1 : QJsonValue := JDouble (QArith_base.Qmake 1 1).
Definition version2 : QJsonValue := JDouble (QArith_base.Qmake 2 1).

Definition sampleInstance (obj : positive) (id name : string) : Instance :=
  {| inst_obj := obj; inst_id := id; inst_name := name;
     inst_group := EmptyString; inst_rootDir := "instances/" +:+ id |}.

(** The file
    [{ "formatVersion": 1, "groups": { "g": { "instances": ["a", 5] } } }]. *)
Definition env_mixedEntries : Env :=
  sampleEnv
    (Some (sampleGroupFile version1
             (JObject [("g", sampleGroup [JString "a";
                                          JDouble (QArith_base.Qmake 5 1)])])))
    [].

(** The file
    [{ "formatVersion": 1,
       "groups": { "bad": { }, "good": { "instances": ["a", "b"] } } }]. *)
Definition env_oneMalformedGroup : Env :=
  sampleEnv
    (Some (sampleGroupFile version1
             (JObject [("bad", JObject []);
                       ("good", sampleGroup [JString "a"; JString "b"])])))
    [].

(** The file
    [{ "formatVersion": 2, "groups": { "g": { "instances": ["a"] } } }]. *)
Definition env_version2 : Env :=
  sampleEnv
    (Some (sampleGroupFile version2
             (JObject [("g", sampleGroup [JString "a"])])))
    [].

(** The members, in file order, of the "groups" object of
    [{ "formatVersion": 1,
       "groups": { "b": { "instances": ["x"] },
                   "a": { "instances": ["x"] } } }],
    and the file as Qt parses it. *)
Definition members_duplicateId : list (string * QJsonValue) :=
  [("b", sampleGroup [JString "x"]); ("a", sampleGroup [JString "x"])].

Definition env_duplicateId : Env :=
  sampleEnv
    (Some (sampleGroupFile version1
             (JObject (QJsonObject_fromMembers members_duplicateId))))
    [].


(** A directory with one candidate of every kind, and a group file that
    puts the instance e into the group g. *)
Definition env_mixedCandidates : Env :=
  sampleEnv
    (Some (sampleGroupFile version1
             (JObject [("g", sampleGroup [JString "e"])])))
    [{| entry_path := "instances/a"; entry_marker := true;
        entry_load := (NotAnInstance, Some (sampleInstance 1 "a" "Alpha")) |};
     {| entry_path := "instances/b.old"; entry_marker := true;
        entry_load := (UnknownLoadError, Some (sampleInstance 2 "b" "Beta")) |};
     {| entry_path := "instances/c"; entry_marker := false;
        entry_load := (NoLoadError, Some (sampleInstance 3 "c" "Gamma")) |};
     {| entry_path := "instances/d"; entry_marker := true;
        entry_load := (NoLoadError, None) |};
     {| entry_path := "instances/e"; entry_marker := true;
        entry_load := (NoLoadError, Some (sampleInstance 5 "e" "Epsilon")) |}].

(** The directory at a first and at a second scan. *)
Definition env_firstScan : Env :=
  sampleEnv None
    [{| entry_path := "instances/a"; entry_marker := true;
        entry_load := (NoLoadError, Some (sampleInstance 1 "a" "Alpha")) |}].

Definition env_secondScan : Env :=
  sampleEnv None
    [{| entry_path := "instances/b"; entry_marker := true;
        entry_load := (NoLoadError, Some (sampleInstance 2 "b" "Beta")) |}].

(** ** Notions used in the further properties *)

(** Whether the scan of [getInstanceById] ends at a pointer: at a null
    pointer, which it dereferences, or at an instance with the id. *)
Definition stopsAt (instId : string) (p : InstancePtr) : bool :=
  match p with
  | None => true
  | Some i => String.eqb (inst_id i) instId
  end.

(** The signals among the events, in order. *)
Definition signals (events : list Event) : list Signal :=
  omap (fun e => match e with Emit s => Some s | _ => None end) events.

(** The log lines among the events, in order: one for each call of
    [qDebug] or [qWarning]. *)
Definition logLines (events : list Event)
  : list (QtMsgType * option string) :=
  omap (fun e => match e with Log l t => Some (l, t) | _ => None end) events.




(** A collection of two instances, and one with a null pointer in it. *)
Definition sampleCollection : InstanceList :=
  {| m_instDir := "instances";
     m_instances := [Some (sampleInstance 1 "a" "Alpha");
                     Some (sampleInstance 2 "b" "Beta")] |}.

Definition sampleCollectionWithNull : InstanceList :=
  {| m_instDir := "instances";
     m_instances := [Some (sampleInstance 1 "a" "Alpha"); None;
                     Some (sampleInstance 2 "b" "Beta")] |}.

(** * Properties *)

(** ** The collection: [add] and [getInstanceById] *)

(** C8: [add] appends the instance at the end of the sequence, emits
    exactly one [instanceAdded] signal, whose index is [count() - 1] as
    counted after the append, which is the position of the new element,
    and returns that index. *)
Theorem add_appends_emits_returns (self : InstanceList) (t : InstancePtr) :
  let index := (add t self).1.1 in
  let self' := (add t self).1.2 in
  let events := (add t self).2 in
  m_instances self' = m_instances self ++ [t] /\
  m_instDir self' = m_instDir self /\
  events = [Emit (instanceAdded (count self' - 1))] /\
  index = count self' - 1 /\
  index = Z.of_nat (length (m_instances self)) /\
  m_instances self' !! Z.to_nat index = Some t.
Proof.
  cbn. unfold count. cbn. rewrite length_app. cbn.
  assert (E : Z.of_nat (length (m_instances self) + 1) - 1
              = Z.of_nat (length (m_instances self))) by lia.
  rewrite E, Nat2Z.id. repeat split; try reflexivity.
  rewrite lookup_app_r by lia. now rewrite Nat.sub_diag.
Qed.

Lemma last_default_irrelevant {A : Type} (l : list A) (d d' : A) :
  l <> [] -> List.last l d = List.last l d'.
Proof.
  induction l as [|x [|y l] IH]; intros Hne; [done|reflexivity|].
  apply IH. done.
Qed.

Lemma getInstanceById_loop_spec (instId : string) (ahead : list InstancePtr) :
  Forall is_Some ahead ->
  forall (passed : list InstancePtr) (inst : InstancePtr),
    match List.find (hasId instId) ahead with
    | Some x =>
        exists P A, getInstanceById_loop passed ahead inst instId
                    = Returns (x, {| passed := x :: P; ahead := A |})
    | None =>
        getInstanceById_loop passed ahead inst instId
        = Returns (List.last ahead inst,
                   {| passed := rev ahead ++ passed; ahead := [] |})
    end.
Proof.
  induction 1 as [|x ahead [i ->] _ IH]; intros passed inst; cbn.
  - reflexivity.
  - destruct (String.eqb (inst_id i) instId) eqn:E.
    + eauto.
    + specialize (IH (Some i :: passed) (Some i)).
      destruct (List.find (hasId instId) ahead) as [y|].
      * exact IH.
      * rewrite IH, <- app_assoc. cbn.
        destruct ahead as [|y ahead]; [reflexivity|].
        now rewrite (last_default_irrelevant (y :: ahead) inst (Some i)).
Qed.

Lemma find_hasId_None_last (instId : string) (l : list InstancePtr)
    (d : InstancePtr) :
  List.find (hasId instId) l = None -> l <> [] ->
  hasId instId (List.last l d) = false.
Proof.
  induction l as [|x l IH]; intros Hf Hne; [done|].
  cbn in Hf. destruct (hasId instId x) eqn:E; [done|].
  destruct l as [|y l]; [exact E|].
  apply IH; [exact Hf|done].
Qed.

Lemma Forall_is_Some_last (l : list InstancePtr) (d : InstancePtr) :
  Forall is_Some l -> l <> [] -> is_Some (List.last l d).
Proof.
  induction 1 as [|x l Hx Hl IH]; intros Hne; [done|].
  destruct l as [|y l]; [exact Hx|]. apply IH. done.
Qed.

(** On a collection that is not empty and holds no null pointer,
    [getInstanceById] returns the first instance with the identifier, or
    the null pointer when there is none. *)
Lemma getInstanceById_nonempty (self : InstanceList) (instId : string) :
  m_instances self <> [] ->
  Forall is_Some (m_instances self) ->
  getInstanceById self instId
  = Returns (default None (List.find (hasId instId) (m_instances self))).
Proof.
  intros Hne Hall. unfold getInstanceById, QListIterator_new. cbn.
  pose proof (getInstanceById_loop_spec instId _ Hall [] None) as H.
  destruct (List.find (hasId instId) (m_instances self)) as [x|] eqn:Hf.
  - destruct H as (P & A & ->).
    apply find_some in Hf as [_ Hx].
    destruct x as [i|]; [|done]. cbn in *. now rewrite Hx.
  - rewrite H.
    pose proof (find_hasId_None_last _ _ None Hf Hne) as Hl.
    destruct (Forall_is_Some_last _ None Hall Hne) as [i Hi].
    rewrite Hi in *. cbn in *. now rewrite Hl.
Qed.

(** C1, at the input where the code departs from it: on an empty
    collection the loop body never runs, [inst] is still the null pointer
    when [inst->id()] is evaluated after the loop, and the call does not
    come to a "not found" result. *)
Theorem getInstanceById_empty_collection (instDir instId : string) :
  getInstanceById {| m_instDir := instDir; m_instances := [] |} instId
  = NullDereference.
Proof. reflexivity. Qed.

(** ** The group file *)

Section GroupFile.
Implicit Types (m groupMap : gmap string string) (events : list Event).
Implicit Types (pairs : list (string * string)) (k id g : string).

Lemma assignAll_app pairs1 pairs2 m :
  assignAll (pairs1 ++ pairs2) m = assignAll pairs2 (assignAll pairs1 m).
Proof. apply fold_left_app. Qed.

Lemma assignAll_notin pairs m k :
  k ∉ pairs.*1 -> assignAll pairs m !! k = m !! k.
Proof.
  revert m. induction pairs as [|[k' v] pairs IH]; intros m Hk; [done|].
  cbn in *. apply not_elem_of_cons in Hk as [Hne Hk].
  rewrite IH by done. now rewrite lookup_insert_ne.
Qed.

(** The last assignment to a key is the one that stays. *)
Lemma assignAll_last pairs1 pairs2 m k g :
  k ∉ pairs2.*1 ->
  assignAll (pairs1 ++ (k, g) :: pairs2) m !! k = Some g.
Proof.
  intros Hk. rewrite assignAll_app. cbn.
  fold (assignAll pairs2 (<[k:=g]> (assignAll pairs1 m))).
  rewrite assignAll_notin by done. apply lookup_insert_eq.
Qed.

(** A key that is assigned at all is assigned a last time. *)
Lemma last_assignment pairs k :
  k ∈ pairs.*1 ->
  exists pairs1 g pairs2,
    pairs = pairs1 ++ (k, g) :: pairs2 /\ k ∉ pairs2.*1.
Proof.
  induction pairs as [|[k' g'] pairs IH]; intros Hk; [by inv Hk|].
  destruct (decide (k ∈ pairs.*1)) as [Hin|Hnin].
  - destruct (IH Hin) as (pairs1 & g & pairs2 & -> & Hl).
    now exists ((k', g') :: pairs1), g, pairs2.
  - cbn in Hk. apply elem_of_cons in Hk as [->|Hk]; [|done].
    now exists [], g', pairs.
Qed.

Lemma assignAll_lookup_Some pairs m k g :
  assignAll pairs m !! k = Some g ->
  (k, g) ∈ pairs \/ ((k ∉ pairs.*1) /\ m !! k = Some g).
Proof.
  intros H. destruct (decide (k ∈ pairs.*1)) as [Hin|Hnin].
  - left. destruct (last_assignment _ _ Hin) as (l1 & g' & l2 & -> & Hl).
    rewrite assignAll_last in H by done. injection H as ->.
    apply elem_of_app. right. left.
  - right. split; [done|]. now rewrite assignAll_notin in H.
Qed.

Lemma assignAll_lookup_None pairs m k :
  assignAll pairs m !! k = None <-> (k ∉ pairs.*1) /\ m !! k = None.
Proof.
  split.
  - intros H. destruct (decide (k ∈ pairs.*1)) as [Hin|Hnin].
    + destruct (last_assignment _ _ Hin) as (l1 & g' & l2 & -> & Hl).
      now rewrite assignAll_last in H.
    + split; [done|]. now rewrite assignAll_notin in H.
  - intros [Hk Hm]. now rewrite assignAll_notin.
Qed.

(** When every pair names the same group, that group is what an
    assigned key ends up with. *)
Lemma assignAll_same_group pairs m k g :
  (forall p, p ∈ pairs -> p.2 = g) ->
  k ∈ pairs.*1 -> assignAll pairs m !! k = Some g.
Proof.
  intros Hall Hin.
  destruct (last_assignment _ _ Hin) as (l1 & g' & l2 & -> & Hl).
  rewrite assignAll_last by done. f_equal.
  apply (Hall (k, g')). apply elem_of_app. right. left.
Qed.

Lemma loadGroupList_instances_assignAll groupName instancesArray m :
  loadGroupList_instances groupName instancesArray m
  = assignAll ((fun e => (toString e, groupName)) <$> instancesArray) m.
Proof.
  revert m. induction instancesArray as [|e a IH]; intros m; [done|].
  cbn. apply IH.
Qed.

Lemma groupPairs_fst iter :
  (groupPairs iter).*1 = toString <$> instancesOf iter.2.
Proof. unfold groupPairs. now rewrite <- list_fmap_compose. Qed.

Lemma groupPairs_snd iter p : p ∈ groupPairs iter -> p.2 = iter.1.
Proof.
  unfold groupPairs. intros H.
  apply list_elem_of_fmap in H as (e & -> & _). reflexivity.
Qed.

(** A group that fails one of the two checks has no pairs. *)
Lemma groupPairs_malformed iter :
  wellFormedGroup iter.2 = false -> groupPairs iter = [].
Proof.
  destruct iter as [n v]. unfold groupPairs, instancesOf, wellFormedGroup.
  cbn. destruct v; cbn; try done.
  destruct (value o "instances"); cbn; done.
Qed.

(** What one pass of the outer loop does to the mapping. *)
Lemma loadGroupList_group_map iter m events :
  (loadGroupList_group iter (m, events)).1 = assignAll (groupPairs iter) m.
Proof.
  unfold loadGroupList_group. cbn.
  destruct (isObject iter.2) eqn:Ho; cbn.
  - destruct (isArray (value (toObject iter.2) "instances")) eqn:Ha; cbn.
    + apply loadGroupList_instances_assignAll.
    + rewrite groupPairs_malformed; [done|].
      unfold wellFormedGroup. now rewrite Ho, Ha.
  - rewrite groupPairs_malformed; [done|].
    unfold wellFormedGroup. now rewrite Ho.
Qed.

Lemma loadGroupList_groups_map groupMapping m events :
  (loadGroupList_groups groupMapping (m, events)).1
  = assignAll (declaredPairs groupMapping) m.
Proof.
  revert m events.
  induction groupMapping as [|iter gs IH]; intros m events; [done|].
  unfold declaredPairs. cbn. rewrite assignAll_app.
  unfold loadGroupList_groups in *. cbn.
  destruct (loadGroupList_group iter (m, events)) as [m' events'] eqn:E.
  rewrite IH. f_equal.
  change m' with (m', events').1. rewrite <- E.
  apply loadGroupList_group_map.
Qed.

(** With a valid file, [loadGroupList] is the loop over the groups. *)
Lemma loadGroupList_valid env self groupMapping m :
  validGroupFile env self groupMapping ->
  loadGroupList env self m = loadGroupList_groups groupMapping (m, []).
Proof.
  intros (rootObj & (Hex & jsonStr & Hrd & Hp) & Hv & Hg).
  unfold loadGroupList. rewrite Hex, Hrd, Hp. cbn.
  rewrite Hv, Hg. reflexivity.
Qed.




Lemma sampleEnv_validGroupFile groupMapping entries instDir :
  validGroupFile
    (sampleEnv (Some (sampleGroupFile version1 (JObject groupMapping)))
               entries)
    (InstanceList_new instDir) groupMapping.
Proof.
  exists [("formatVersion", version1); ("groups", JObject groupMapping)].
  split; [split; [reflexivity|]|split; reflexivity].
  exists "contents of instgroups.json". split; reflexivity.
Qed.

(** C4, as stated, fails: an element of the array that is no string is
    not passed over.  Its [toString()] is the null string, and the
    group is recorded under that key, so the mapping holds an entry
    that no string of the array declares. *)
Lemma nonstring_entry_is_recorded :
  ~ (forall (env : Env) (self : InstanceList) (groupMapping : QJsonObject)
            (k g : string),
        validGroupFile env self groupMapping ->
        (loadGroupList env self ∅).1 !! k = Some g ->
        exists v, (g, v) ∈ groupMapping /\ JString k ∈ instancesOf v).
Proof.
  intros H.
  destruct (H env_mixedEntries (InstanceList_new "instances")
              [("g", sampleGroup [JString "a";
                                  JDouble (QArith_base.Qmake 5 1)])]
              EmptyString "g") as (v & Hv & Hk).
  - apply sampleEnv_validGroupFile.
  - reflexivity.
  - apply list_elem_of_singleton in Hv. injection Hv as ->.
    cbn in Hk. rewrite !elem_of_cons, elem_of_nil in Hk.
    destruct Hk as [Hk|[Hk|[]]]; discriminate.
Qed.

(** C4, amended: for a group that passes the two checks, every element
    of its "instances" array is recorded under its [toString()] with
    the group's name: a string under itself, anything else under the
    empty identifier; no other key of the mapping changes and nothing
    is logged. *)
Theorem loadGroupList_group_records_elements
    (groupName : string) (v : QJsonValue) m events :
  wellFormedGroup v = true ->
  let r := loadGroupList_group (groupName, v) (m, events) in
  r.2 = events /\
  (forall s, JString s ∈ instancesOf v -> r.1 !! s = Some groupName) /\
  (forall e, e ∈ instancesOf v -> isString e = false ->
             r.1 !! EmptyString = Some groupName) /\
  (forall k, k ∉ toString <$> instancesOf v -> r.1 !! k = m !! k).
Proof.
  intros Hwf r.
  assert (Hin : forall e, e ∈ instancesOf v ->
                          r.1 !! toString e = Some groupName).
  { intros e He. unfold r. rewrite loadGroupList_group_map.
    apply assignAll_same_group.
    - intros p Hp. apply (groupPairs_snd _ _ Hp).
    - rewrite groupPairs_fst. now apply list_elem_of_fmap_2. }
  repeat split.
  - unfold r, loadGroupList_group. cbn.
    unfold wellFormedGroup in Hwf. apply andb_prop in Hwf as [-> Ha]. cbn.
    now rewrite Ha.
  - intros s Hs. apply (Hin _ Hs).
  - intros e He Hns. specialize (Hin e He).
    destruct e; try discriminate; exact Hin.
  - intros k Hk. unfold r. rewrite loadGroupList_group_map.
    apply assignAll_notin. now rewrite groupPairs_fst.
Qed.

Lemma loadGroupList_group_records_elements_witness :
  wellFormedGroup (sampleGroup [JString "a"; JNull]) = true /\
  (loadGroupList_group ("g", sampleGroup [JString "a"; JNull]) (∅, [])).1
    !! EmptyString = Some "g".
Proof.
  split; [reflexivity|].
  apply (loadGroupList_group_records_elements
           "g" (sampleGroup [JString "a"; JNull]) ∅ [] eq_refl)
    with (e := JNull); [|reflexivity].
  right. left.
Defined.



(** C7, as stated, fails on one point: when the declared version is not
    1 the mapping does stay empty, but nothing is logged on that path. *)
Lemma version_mismatch_is_silent :
  ~ (forall (env : Env) (self : InstanceList) (rootObj : QJsonObject),
        groupFileHolds env self rootObj ->
        QVariant_toInt env (value rootObj "formatVersion")
          <> GROUP_FILE_FORMAT_VERSION ->
        (loadGroupList env self ∅).1 = ∅ /\
        exists text, qWarning text ∈ (loadGroupList env self ∅).2).
Proof.
  intros H.
  destruct (H env_version2 (InstanceList_new "instances")
              [("formatVersion", version2);
               ("groups", JObject [("g", sampleGroup [JString "a"])])])
    as (_ & text & Hlog).
  - split; [reflexivity|].
    exists "contents of instgroups.json". split; reflexivity.
  - discriminate.
  - cbn in Hlog. now apply elem_of_nil in Hlog.
Qed.

(** C7, amended: [loadGroupList] always returns, and on every path on
    which it gives up on the file it leaves the caller's mapping as it
    was (empty, when called from [loadList]).  A root that is no object
    and a "groups" member that is missing or no object are logged as
    warnings; a missing file and a version other than 1 are not logged
    at all. *)
Theorem loadGroupList_defect_leaves_mapping
    (env : Env) (self : InstanceList) m (logged : list Event) :
  GroupFileDefect env self logged ->
  loadGroupList env self m = (m, logged).
Proof.
  intros H. unfold loadGroupList.
  destruct H as [Hex|Hex Hrd|s es off Hex Hrd Hp|s d Hex Hrd Hp Hno
                 |rootObj (Hex & s & Hrd & Hp) Hv
                 |rootObj (Hex & s & Hrd & Hp) Hv Hg].
  - now rewrite Hex.
  - now rewrite Hex, Hrd.
  - now rewrite Hex, Hrd, Hp.
  - now rewrite Hex, Hrd, Hp, Hno.
  - rewrite Hex, Hrd, Hp. cbn.
    apply Z.eqb_neq in Hv. now rewrite Hv.
  - rewrite Hex, Hrd, Hp. cbn. rewrite Hv, Hg. reflexivity.
Qed.

Lemma loadGroupList_defect_leaves_mapping_witness :
  GroupFileDefect env_version2 (InstanceList_new "instances") [] /\
  loadGroupList env_version2 (InstanceList_new "instances") ∅ = (∅, []).
Proof.
  assert (D : GroupFileDefect env_version2 (InstanceList_new "instances") []).
  { apply (VersionMismatch _ _
             [("formatVersion", version2);
              ("groups", JObject [("g", sampleGroup [JString "a"])])]).
    - split; [reflexivity|].
      exists "contents of instgroups.json". split; reflexivity.
    - discriminate. }
  split; [exact D|].
  apply (loadGroupList_defect_leaves_mapping _ _ ∅ [] D).
Defined.
End GroupFile.

(** ** The order in which the groups are visited *)

Section GroupOrder.
Implicit Types (o : QJsonObject) (members : list (string * QJsonValue)).
Implicit Types (k : string) (v : QJsonValue).

Lemma keyBefore_trans (a b c : string * QJsonValue) :
  keyBefore a b -> keyBefore b c -> keyBefore a c.
Proof. unfold keyBefore. apply String_as_OT.lt_strorder. Qed.

Lemma keyBefore_irrefl (a b : string * QJsonValue) :
  keyBefore a b -> keyBefore b a -> a = b.
Proof.
  intros H1 H2. exfalso.
  apply (StrictOrder_Irreflexive (R := String_as_OT.lt) a.1).
  exact (keyBefore_trans _ _ _ H1 H2).
Qed.

Lemma QJsonObject_insert_elem k v o x :
  x ∈ QJsonObject_insert k v o -> x = (k, v) \/ x ∈ o.
Proof.
  induction o as [|[k' v'] o IH]; cbn.
  - intros H. apply list_elem_of_singleton in H. now left.
  - destruct (String_as_OT.compare k k').
    + intros H. apply elem_of_cons in H as [H|H]; [now left|].
      right. now right.
    + intros H. apply elem_of_cons in H as [H|H]; [now left|now right].
    + intros H. apply elem_of_cons in H as [H|H].
      * right. subst. left.
      * destruct (IH H) as [?|?]; [now left|]. right. now right.
Qed.

Lemma QJsonObject_insert_sorted k v o :
  StronglySorted keyBefore o ->
  StronglySorted keyBefore (QJsonObject_insert k v o).
Proof.
  intros Hsorted. induction Hsorted as [|x o Hs IH Hall]; cbn.
  - repeat constructor.
  - destruct x as [k' v'].
    destruct (String_as_OT.compare_spec k k') as [Heq|Hlt|Hgt].
    + unfold String_as_OT.eq in Heq. subst k'.
      constructor; [exact Hs|]. exact Hall.
    + constructor; [now constructor|].
      constructor; [exact Hlt|].
      eapply Forall_impl; [exact Hall|].
      intros x Hx. exact (keyBefore_trans (k, v) (k', v') x Hlt Hx).
    + constructor; [exact IH|].
      apply Forall_forall. intros x Hx.
      apply QJsonObject_insert_elem in Hx as [->|Hx]; [exact Hgt|].
      rewrite Forall_forall in Hall. now apply Hall.
Qed.

Lemma QJsonObject_insert_fresh k v o :
  k ∉ o.*1 -> QJsonObject_insert k v o ≡ₚ (k, v) :: o.
Proof.
  induction o as [|[k' v'] o IH]; cbn; intros Hk; [done|].
  apply not_elem_of_cons in Hk as [Hne Hk].
  destruct (String_as_OT.compare_spec k k') as [Heq|Hlt|Hgt].
  - now unfold String_as_OT.eq in Heq.
  - done.
  - rewrite (IH Hk). apply perm_swap.
Qed.

Lemma insertAll_sorted members o :
  StronglySorted keyBefore o -> StronglySorted keyBefore (insertAll members o).
Proof.
  revert o. induction members as [|[k v] members IH]; intros o Ho; [done|].
  cbn. apply IH. now apply QJsonObject_insert_sorted.
Qed.

Lemma insertAll_elem members o x :
  x ∈ insertAll members o -> x ∈ members \/ x ∈ o.
Proof.
  revert o. induction members as [|[k v] members IH]; intros o H; [now right|].
  cbn in H. apply IH in H as [H|H]; [left; now right|].
  apply QJsonObject_insert_elem in H as [->|H]; [left; left|now right].
Qed.

Lemma insertAll_distinct members o :
  NoDup (members.*1 ++ o.*1) -> insertAll members o ≡ₚ members ++ o.
Proof.
  revert o. induction members as [|[k v] members IH]; intros o Hnd; [done|].
  cbn in *. apply NoDup_cons in Hnd as [Hk Hnd].
  assert (Hfresh : QJsonObject_insert k v o ≡ₚ (k, v) :: o).
  { apply QJsonObject_insert_fresh. intros Hin. apply Hk.
    apply elem_of_app. now right. }
  rewrite IH.
  - rewrite Hfresh. now rewrite <- Permutation_middle.
  - rewrite Hfresh. cbn. rewrite <- Permutation_middle.
    apply NoDup_cons. split; [exact Hk|exact Hnd].
Qed.

Lemma QJsonObject_fromMembers_sorted members :
  StronglySorted keyBefore (QJsonObject_fromMembers members).
Proof. apply (insertAll_sorted members []). constructor. Qed.

Lemma QJsonObject_fromMembers_elem members x :
  x ∈ QJsonObject_fromMembers members -> x ∈ members.
Proof.
  intros H. apply (insertAll_elem members []) in H as [H|H]; [done|].
  now apply elem_of_nil in H.
Qed.

Lemma QJsonObject_fromMembers_distinct members :
  NoDup members.*1 -> QJsonObject_fromMembers members ≡ₚ members.
Proof.
  intros H. unfold QJsonObject_fromMembers.
  fold (insertAll members []). rewrite insertAll_distinct.
  - now rewrite app_nil_r.
  - cbn. now rewrite app_nil_r.
Qed.

(** Objects with distinct keys do not depend on the order in which the
    members stand in the file. *)
Lemma QJsonObject_fromMembers_order members members' :
  NoDup members.*1 -> members' ≡ₚ members ->
  QJsonObject_fromMembers members' = QJsonObject_fromMembers members.
Proof.
  intros Hnd Hp.
  apply (StronglySorted_unique_strong keyBefore).
  - intros x1 x2 _ _. apply keyBefore_irrefl.
  - apply QJsonObject_fromMembers_sorted.
  - apply QJsonObject_fromMembers_sorted.
  - rewrite !QJsonObject_fromMembers_distinct; [exact Hp|exact Hnd|].
    now rewrite Hp.
Qed.

Lemma declaredPairs_elem (o o' : QJsonObject) p :
  (forall x, x ∈ o -> x ∈ o') -> p ∈ declaredPairs o -> p ∈ declaredPairs o'.
Proof.
  unfold declaredPairs. rewrite !list_elem_of_bind.
  intros Hsub (x & Hp & Hx). exists x. split; [exact Hp|now apply Hsub].
Qed.

Lemma declaredPairs_Permutation (o o' : QJsonObject) :
  o ≡ₚ o' -> declaredPairs o ≡ₚ declaredPairs o'.
Proof. intros H. unfold declaredPairs. now rewrite H. Qed.

(** The order of the elements within one array does not matter. *)
Lemma loadGroupList_instances_order (groupName : string)
    (a a' : QJsonArray) (m : gmap string string) :
  a ≡ₚ a' ->
  loadGroupList_instances groupName a m
  = loadGroupList_instances groupName a' m.
Proof.
  intros Hp. apply map_eq. intros k.
  rewrite !loadGroupList_instances_assignAll.
  set (f := fun e : QJsonValue => (toString e, groupName)).
  assert (Hsnd : forall (l : QJsonArray) p, p ∈ f <$> l -> p.2 = groupName).
  { intros l p H. apply list_elem_of_fmap in H as (e & -> & _). done. }
  destruct (decide (k ∈ (f <$> a).*1)) as [Hin|Hnin].
  - rewrite !(assignAll_same_group _ _ _ groupName); eauto.
    now rewrite <- Hp.
  - rewrite !assignAll_notin; [done| |done]. now rewrite <- Hp.
Qed.

(** C6, as stated, fails on its last point.  The groups are visited in
    the order of the parsed object, which is by name, so when an
    identifier stands in two groups it is not the later group of the
    file that decides: in the file
    [{ "formatVersion": 1,
       "groups": { "b": { "instances": ["x"] },
                   "a": { "instances": ["x"] } } }]
    the identifier x ends up in group b, the first one of the file. *)
Lemma last_in_file_order_does_not_win :
  ~ (forall (env : Env) (self : InstanceList) members
            (before after : list (string * string)) (id g : string),
        validGroupFile env self (QJsonObject_fromMembers members) ->
        Forall (fun member => wellFormedGroup member.2 = true) members ->
        declaredPairs members = before ++ (id, g) :: after ->
        id ∉ after.*1 ->
        (loadGroupList env self ∅).1 !! id = Some g).
Proof.
  intros H.
  specialize (H env_duplicateId (InstanceList_new "instances")
                members_duplicateId [("x", "b")] [] "x" "a").
  assert (E : (loadGroupList env_duplicateId (InstanceList_new "instances")
                 ∅).1 !! "x" = Some "b") by reflexivity.
  rewrite H in E.
  - discriminate.
  - apply sampleEnv_validGroupFile.
  - repeat constructor.
  - reflexivity.
  - apply not_elem_of_nil.
Qed.

(** C6, amended: for a valid file whose groups are all well-formed,
    nothing is logged and every entry of the mapping is a pair declared
    in the file.  The groups are visited in ascending order of their
    names and the elements of an array in their order, and the last
    assignment made to an identifier in that order is the one that
    stays.  Hence, when the group names are distinct and every
    identifier is declared once, the mapping holds exactly the declared
    pairs.  Neither the order of distinctly named groups in the file nor
    the order of the elements within an array changes the result. *)
Theorem loadGroupList_declared_pairs
    (env : Env) (self : InstanceList) members :
  validGroupFile env self (QJsonObject_fromMembers members) ->
  Forall (fun member => wellFormedGroup member.2 = true) members ->
  let groupMapping := QJsonObject_fromMembers members in
  let groupMap := (loadGroupList env self ∅).1 in
  (loadGroupList env self ∅).2 = [] /\
  (forall id g, groupMap !! id = Some g -> (id, g) ∈ declaredPairs members) /\
  StronglySorted keyBefore groupMapping /\
  (forall before id g after,
      declaredPairs groupMapping = before ++ (id, g) :: after ->
      id ∉ after.*1 -> groupMap !! id = Some g) /\
  (NoDup members.*1 -> NoDup (declaredPairs members).*1 ->
   forall id g, groupMap !! id = Some g <-> (id, g) ∈ declaredPairs members) /\
  (forall members', NoDup members.*1 -> members' ≡ₚ members ->
                    QJsonObject_fromMembers members' = groupMapping) /\
  (forall groupName (a a' : QJsonArray) (m : gmap string string),
      a ≡ₚ a' ->
      loadGroupList_instances groupName a m
      = loadGroupList_instances groupName a' m).
Proof.
  intros Hvalid Hwf groupMapping groupMap.
  assert (Hmap : groupMap = assignAll (declaredPairs groupMapping) ∅).
  { unfold groupMap. rewrite (loadGroupList_valid _ _ _ _ Hvalid).
    apply loadGroupList_groups_map. }
  assert (Hlast : forall before id g after,
             declaredPairs groupMapping = before ++ (id, g) :: after ->
             id ∉ after.*1 -> groupMap !! id = Some g).
  { intros before id g after E Hid. rewrite Hmap, E.
    now apply assignAll_last. }
  assert (Hsub : forall id g, groupMap !! id = Some g ->
                              (id, g) ∈ declaredPairs members).
  { intros id g H. rewrite Hmap in H.
    apply assignAll_lookup_Some in H as [H|[_ H]]; [|done].
    revert H. apply declaredPairs_elem.
    apply QJsonObject_fromMembers_elem. }
  split; [|split; [exact Hsub|split; [|split; [exact Hlast|split; [|split]]]]].
  - rewrite (loadGroupList_valid _ _ _ _ Hvalid).
    assert (Hall : Forall (fun member => wellFormedGroup member.2 = true)
                          groupMapping).
    { rewrite Forall_forall in Hwf |- *. intros x Hx.
      apply Hwf. now apply QJsonObject_fromMembers_elem. }
    clear -Hall. generalize (∅ : gmap string string).
    fold groupMapping. induction Hall as [|x gs Hx _ IH]; intros m; [done|].
    unfold loadGroupList_groups in *. cbn.
    unfold loadGroupList_group at 2. cbn.
    unfold wellFormedGroup in Hx. apply andb_prop in Hx as [-> ->]. cbn.
    apply IH.
  - apply QJsonObject_fromMembers_sorted.
  - intros Hnames Hids id g. split; [apply Hsub|]. intros Hin.
    pose proof (declaredPairs_Permutation _ _
                  (QJsonObject_fromMembers_distinct _ Hnames)) as Hp.
    fold groupMapping in Hp.
    rewrite <- Hp in Hin, Hids.
    apply list_elem_of_split in Hin as (before & after & E).
    apply (Hlast before id g after E).
    rewrite E, fmap_app, fmap_cons in Hids.
    apply NoDup_app in Hids as (_ & _ & Hids).
    now apply NoDup_cons in Hids as [Hids _].
  - intros members' Hnames Hp.
    now apply QJsonObject_fromMembers_order.
  - intros groupName a a' m. apply loadGroupList_instances_order.
Qed.

Lemma loadGroupList_declared_pairs_witness :
  (validGroupFile env_duplicateId (InstanceList_new "instances")
     (QJsonObject_fromMembers members_duplicateId) /\
   Forall (fun member => wellFormedGroup member.2 = true)
          members_duplicateId) /\
  (loadGroupList env_duplicateId (InstanceList_new "instances") ∅).2 = [].
Proof.
  assert (W : Forall (fun member => wellFormedGroup member.2 = true)
                     members_duplicateId) by (repeat constructor).
  split; [split; [apply sampleEnv_validGroupFile|exact W]|].
  exact (proj1 (loadGroupList_declared_pairs
                  env_duplicateId (InstanceList_new "instances")
                  members_duplicateId
                  (sampleEnv_validGroupFile _ _ _) W)).
Defined.
End GroupOrder.

(** ** Scanning the directory *)

Section Scan.
Implicit Types (env : Env) (groupMap : gmap string string).
Implicit Types (instances : list InstancePtr) (events : list Event).
Implicit Types (subDir : string) (entries : list string).







Lemma loaderCalls_app events1 events2 :
  loaderCalls (events1 ++ events2) = loaderCalls events1 ++ loaderCalls events2.
Proof. apply omap_app. Qed.

(** What one pass of the loop does to the collection and to the list of
    loader calls. *)
Lemma loadList_entry_effect env groupMap subDir instances events :
  let r := loadList_entry env groupMap subDir (instances, events) in
  r.1 = instances ++
        from_option (fun i => [Some (assignGroup groupMap i)]) []
                    (adopted env subDir) /\
  loaderCalls r.2 = loaderCalls events ++
                    (if hasMarker env subDir then [subDir] else []).
Proof.
  unfold loadList_entry, adopted, hasMarker. cbn.
  destruct (QFileInfo_exists env (PathCombine env subDir "instance.cfg")); cbn.
  - destruct (loadInstance env subDir) as [[] [i|]]; cbn;
      rewrite ?app_nil_r, ?loaderCalls_app; cbn; rewrite ?app_nil_r; done.
  - now rewrite !app_nil_r.
Qed.

Lemma loadList_scan_effect env groupMap entries instances events :
  let r := loadList_scan env groupMap entries (instances, events) in
  r.1 = instances ++
        ((fun i => Some (assignGroup groupMap i))
           <$> omap (adopted env) entries) /\
  loaderCalls r.2 = loaderCalls events ++ List.filter (hasMarker env) entries.
Proof.
  revert instances events.
  induction entries as [|subDir entries IH]; intros instances events.
  - cbn. now rewrite !app_nil_r.
  - unfold loadList_scan in *. cbn [fold_left].
    destruct (loadList_entry env groupMap subDir (instances, events))
      as [instances' events'] eqn:E.
    destruct (loadList_entry_effect env groupMap subDir instances events)
      as [H1 H2].
    rewrite E in H1, H2. cbn [fst snd] in H1, H2.
    destruct (IH instances' events') as [IH1 IH2].
    cbn zeta in IH1, IH2. rewrite IH1, IH2, H1, H2.
    cbn [omap list_omap List.filter].
    destruct (adopted env subDir) as [i|], (hasMarker env subDir); cbn;
      rewrite <- ?app_assoc; cbn; rewrite ?app_nil_r; done.
Qed.

(** [loadGroupList] calls no loader. *)
Lemma loadGroupList_group_no_call iter (st : gmap string string * list Event) :
  loaderCalls (loadGroupList_group iter st).2 = loaderCalls st.2.
Proof.
  unfold loadGroupList_group.
  repeat (case_match; cbn); rewrite ?loaderCalls_app; cbn;
    rewrite ?app_nil_r; done.
Qed.

Lemma loadGroupList_no_call env self groupMap :
  loaderCalls (loadGroupList env self groupMap).2 = [].
Proof.
  unfold loadGroupList.
  repeat (case_match; cbn; try done).
  unfold loadGroupList_groups.
  generalize (toObject (value (QJsonDocument_object jsonDoc) "groups")).
  intros gs.
  assert (G : forall st,
             loaderCalls st.2 = [] ->
             loaderCalls
               (fold_left (fun st iter => loadGroupList_group iter st) gs st).2
             = []).
  { induction gs as [|iter gs IH]; intros st Hst; [done|].
    cbn. apply IH. now rewrite loadGroupList_group_no_call. }
  now apply G.
Qed.

(** The collection [loadList] leaves, whatever it held before. *)
Lemma loadList_instances env (self : InstanceList) :
  m_instances (loadList env self).1.2
  = (fun i => Some (assignGroup (loadGroupList env self ∅).1 i))
      <$> omap (adopted env) (QDirIterator_entries env (m_instDir self)).
Proof.
  pose proof (loadList_scan_effect env (loadGroupList env self ∅).1
                (QDirIterator_entries env (m_instDir self)) []
                (loadGroupList env self ∅).2) as [H1 _].
  exact H1.
Qed.

(** The loader is called for the entries with the marker file, and for
    no others. *)
Lemma loadList_loaderCalls env (self : InstanceList) :
  loaderCalls (loadList env self).2
  = List.filter (hasMarker env) (QDirIterator_entries env (m_instDir self)).
Proof.
  pose proof (loadList_scan_effect env (loadGroupList env self ∅).1
                (QDirIterator_entries env (m_instDir self)) []
                (loadGroupList env self ∅).2) as [_ H2].
  cbn zeta in H2.
  unfold loadList. cbn. rewrite loaderCalls_app. cbn.
  rewrite app_nil_r, H2. now rewrite loadGroupList_no_call.
Qed.







(** C9: a second [loadList] starts from an emptied collection, so what
    it leaves does not depend on what the first call had loaded: every
    instance in the collection afterwards was handed over by the loader
    during the second scan, for a candidate of that scan. *)
Theorem loadList_twice_replaces env1 env2 (self : InstanceList) :
  let self1 := (loadList env1 self).1.2 in
  let self2 := (loadList env2 self1).1.2 in
  let groupMap2 := (loadGroupList env2 self1 ∅).1 in
  (forall instances,
      loadList env2 {| m_instDir := m_instDir self; m_instances := instances |}
      = loadList env2 self1) /\
  m_instances self2
  = (fun i => Some (assignGroup groupMap2 i))
      <$> omap (adopted env2) (QDirIterator_entries env2 (m_instDir self)) /\
  (forall p, p ∈ m_instances self2 ->
     exists subDir i,
       subDir ∈ QDirIterator_entries env2 (m_instDir self) /\
       hasMarker env2 subDir = true /\
       (loadInstance env2 subDir).2 = Some i /\
       p = Some (assignGroup groupMap2 i)).
Proof.
  intros self1 self2 groupMap2.
  assert (E : m_instances self2
              = (fun i => Some (assignGroup groupMap2 i))
                  <$> omap (adopted env2)
                           (QDirIterator_entries env2 (m_instDir self))).
  { apply (loadList_instances env2 self1). }
  split; [reflexivity|]. split; [exact E|].
  intros p Hp. rewrite E in Hp.
  apply list_elem_of_fmap in Hp as (i & -> & Hi).
  apply list_elem_of_omap in Hi as (subDir & Hin & Had).
  exists subDir, i. split; [exact Hin|].
  unfold adopted in Had.
  destruct (hasMarker env2 subDir); [|discriminate].
  split; [reflexivity|]. split; [|reflexivity].
  cbn in Had. now case_match.
Qed.

Lemma loadList_twice_replaces_witness :
  m_instances (loadList env_firstScan (InstanceList_new "instances")).1.2
  = [Some (sampleInstance 1 "a" "Alpha")] /\
  m_instances
    (loadList env_secondScan
       (loadList env_firstScan (InstanceList_new "instances")).1.2).1.2
  = [Some (sampleInstance 2 "b" "Beta")].
Proof.
  split; [reflexivity|].
  exact (proj1 (proj2 (loadList_twice_replaces env_firstScan env_secondScan
                         (InstanceList_new "instances")))).
Defined.

(** C10: the constructor ignores its argument.  The root directory is
    always the relative path "instances": that is the directory
    [loadList] scans and the directory in which [loadGroupList] looks
    for the group file, so both do the same for any two constructor
    arguments. *)
Theorem InstanceList_new_ignores_instDir (instDir1 instDir2 : string)
    env groupMap :
  m_instDir (InstanceList_new instDir1) = "instances" /\
  InstanceList_new instDir1 = InstanceList_new instDir2 /\
  loadList env (InstanceList_new instDir1)
    = loadList env (InstanceList_new instDir2) /\
  loadGroupList env (InstanceList_new instDir1) groupMap
    = loadGroupList env (InstanceList_new instDir2) groupMap /\
  loaderCalls (loadList env (InstanceList_new instDir1)).2
    = List.filter (hasMarker env) (QDirIterator_entries env "instances") /\
  (forall env',
      QFileInfo_exists env' "instances/instgroups.json" = false ->
      loadGroupList env' (InstanceList_new instDir1) groupMap = (groupMap, [])).
Proof.
  repeat split.
  - apply loadList_loaderCalls.
  - intros env' Hex. unfold loadGroupList. cbn [m_instDir InstanceList_new].
    change ("instances" +:+ "/instgroups.json")
      with "instances/instgroups.json".
    now rewrite Hex.
Qed.

Lemma InstanceList_new_ignores_instDir_witness :
  QFileInfo_exists env_firstScan "instances/instgroups.json" = false /\
  loadGroupList env_firstScan (InstanceList_new "/home/user/mc") ∅ = (∅, []).
Proof.
  split; [reflexivity|].
  exact (proj2 (proj2 (proj2 (proj2 (proj2
           (InstanceList_new_ignores_instDir
              "/home/user/mc" "instances" env_firstScan ∅)))))
           env_firstScan eq_refl).
Defined.
End Scan.

(** * Further properties *)

(** ** Lookup on any collection *)

Section Lookup.
Implicit Types (self : InstanceList) (instId : string).
Implicit Types (l ahead passed : list InstancePtr) (p inst : InstancePtr).

Lemma find_app_found {A : Type} (f : A -> bool) (l1 l2 : list A) (x : A) :
  List.find f l1 = Some x -> List.find f (l1 ++ l2) = Some x.
Proof.
  induction l1 as [|y l1 IH]; cbn; [done|].
  destruct (f y); [done|exact IH].
Qed.

Lemma find_app_none {A : Type} (f : A -> bool) (l1 l2 : list A) :
  Forall (fun y => f y = false) l1 ->
  List.find f (l1 ++ l2) = List.find f l2.
Proof.
  induction 1 as [|y l1 Hy _ IH]; cbn; [done|]. now rewrite Hy.
Qed.

Lemma find_split {A : Type} (f : A -> bool) (l : list A) (x : A) :
  List.find f l = Some x ->
  exists before after,
    l = before ++ x :: after /\ f x = true /\
    Forall (fun y => f y = false) before.
Proof.
  induction l as [|y l IH]; cbn; [done|].
  destruct (f y) eqn:E.
  - intros [= ->]. now exists [], l.
  - intros H. destruct (IH H) as (before & after & -> & Hx & Hb).
    exists (y :: before), after. repeat split; [exact Hx|].
    now constructor.
Qed.

Lemma find_none_Forall {A : Type} (f : A -> bool) (l : list A) :
  List.find f l = None <-> Forall (fun y => f y = false) l.
Proof.
  induction l as [|y l IH]; cbn.
  - split; [constructor|done].
  - destruct (f y) eqn:E.
    + split; [done|]. intros H. apply Forall_cons in H as [H _]. congruence.
    + rewrite IH. split; [now constructor|].
      intros H. now apply Forall_cons in H as [_ H].
Qed.

Lemma last_elem {A : Type} (l : list A) (d : A) :
  l <> [] -> List.last l d ∈ l.
Proof.
  induction l as [|x [|y l] IH]; intros Hne; [done|left|].
  right. apply IH. done.
Qed.

(** The loop on any list: it ends at the first pointer that is null or
    has the id. *)
Lemma getInstanceById_loop_outcome instId ahead passed inst :
  match List.find (stopsAt instId) ahead with
  | Some None =>
      getInstanceById_loop passed ahead inst instId = NullDereference
  | Some (Some i) =>
      exists P A, getInstanceById_loop passed ahead inst instId
                  = Returns (Some i, {| passed := Some i :: P; ahead := A |})
  | None =>
      getInstanceById_loop passed ahead inst instId
      = Returns (List.last ahead inst,
                 {| passed := rev ahead ++ passed; ahead := [] |})
  end.
Proof.
  revert passed inst.
  induction ahead as [|x ahead IH]; intros passed inst; cbn; [done|].
  destruct x as [i|]; cbn; [|done].
  destruct (String.eqb (inst_id i) instId) eqn:E; [eauto|].
  specialize (IH (Some i :: passed) (Some i)).
  destruct (List.find (stopsAt instId) ahead) as [[j|]|]; [exact IH..|].
  rewrite IH, <- app_assoc. cbn.
  destruct ahead as [|y ahead]; [reflexivity|].
  now rewrite (last_default_irrelevant (y :: ahead) inst (Some i)).
Qed.

(** What [getInstanceById] comes to on any collection. *)
Lemma getInstanceById_outcome self instId :
  getInstanceById self instId
  = match m_instances self with
    | [] => NullDereference
    | _ :: _ =>
        match List.find (stopsAt instId) (m_instances self) with
        | Some (Some i) => Returns (Some i)
        | Some None => NullDereference
        | None => Returns None
        end
    end.
Proof.
  unfold getInstanceById, QListIterator_new. cbn.
  destruct (m_instances self) as [|x l] eqn:El; [reflexivity|].
  pose proof (getInstanceById_loop_outcome instId (x :: l) [] None) as H.
  destruct (List.find (stopsAt instId) (x :: l)) as [[i|]|] eqn:Hf.
  - destruct H as (P & A & ->).
    apply find_some in Hf as [_ Hi]. cbn in *. now rewrite Hi.
  - now rewrite H.
  - rewrite H. apply find_none_Forall in Hf. rewrite Forall_forall in Hf.
    pose proof (Hf _ (last_elem (x :: l) None ltac:(done))) as Hl.
    destruct (List.last (x :: l) None) as [j|]; [|done].
    cbn in *. now rewrite Hl.
Qed.

(** X1: On a collection that is not empty and holds no null pointer the
    lookup always returns: the first instance with the identifier, or
    the null pointer when no instance has it. *)
Theorem getInstanceById_first_match_or_null self instId :
  m_instances self <> [] ->
  Forall is_Some (m_instances self) ->
  (exists i before after,
      getInstanceById self instId = Returns (Some i) /\
      m_instances self = before ++ Some i :: after /\
      inst_id i = instId /\
      Forall (fun p => exists j, p = Some j /\ inst_id j <> instId) before) \/
  (getInstanceById self instId = Returns None /\
   forall i, Some i ∈ m_instances self -> inst_id i <> instId).
Proof.
  intros Hne Hall. rewrite getInstanceById_outcome.
  destruct (m_instances self) as [|x l] eqn:El; [done|]. clear Hne.
  destruct (List.find (stopsAt instId) (x :: l)) as [[i|]|] eqn:Hf.
  - left. apply find_split in Hf as (before & after & E & Hi & Hb).
    exists i, before, after. repeat split; [exact E|now apply String.eqb_eq|].
    rewrite E in Hall. apply Forall_app in Hall as [Hall _].
    rewrite Forall_forall in Hall, Hb |- *. intros p Hp.
    destruct (Hall p Hp) as [j ->]. exists j. split; [done|].
    specialize (Hb _ Hp). cbn in Hb. now apply String.eqb_neq.
  - apply find_some in Hf as [Hin _]. rewrite Forall_forall in Hall.
    apply list_elem_of_In in Hin. now destruct (Hall _ Hin).
  - right. split; [done|]. intros i Hi.
    apply find_none_Forall in Hf. rewrite Forall_forall in Hf.
    specialize (Hf _ Hi). cbn in Hf. now apply String.eqb_neq.
Qed.

Lemma getInstanceById_first_match_or_null_witness :
  (m_instances sampleCollection <> [] /\
   Forall is_Some (m_instances sampleCollection)) /\
  ((exists i before after,
       getInstanceById sampleCollection "b" = Returns (Some i) /\
       m_instances sampleCollection = before ++ Some i :: after /\
       inst_id i = "b" /\
       Forall (fun p => exists j, p = Some j /\ inst_id j <> "b") before) \/
   (getInstanceById sampleCollection "b" = Returns None /\
    forall i, Some i ∈ m_instances sampleCollection -> inst_id i <> "b")).
Proof.
  assert (H1 : m_instances sampleCollection <> []) by discriminate.
  assert (H2 : Forall is_Some (m_instances sampleCollection))
    by (repeat constructor; eexists; reflexivity).
  split; [split; [exact H1|exact H2]|].
  exact (getInstanceById_first_match_or_null sampleCollection "b" H1 H2).
Defined.

(** X2: Whatever the collection holds, an instance that [getInstanceById]
    returns is an entry of the collection, has the requested identifier,
    and is the first such entry: every entry before it is a non-null
    instance with another identifier. *)
Theorem getInstanceById_found_is_first self instId (i : Instance) :
  getInstanceById self instId = Returns (Some i) ->
  inst_id i = instId /\
  exists before after,
    m_instances self = before ++ Some i :: after /\
    Forall (fun p => exists j, p = Some j /\ inst_id j <> instId) before.
Proof.
  rewrite getInstanceById_outcome.
  destruct (m_instances self) as [|x l] eqn:El; [done|].
  destruct (List.find (stopsAt instId) (x :: l)) as [[j|]|] eqn:Hf; [|done..].
  intros [= ->]. apply find_split in Hf as (before & after & E & Hi & Hb).
  split; [now apply String.eqb_eq|].
  exists before, after. split; [exact E|].
  eapply Forall_impl; [exact Hb|]. intros [j|] Hj; [|done].
  exists j. split; [done|]. now apply String.eqb_neq.
Qed.

Lemma getInstanceById_found_is_first_witness :
  getInstanceById sampleCollectionWithNull "a"
  = Returns (Some (sampleInstance 1 "a" "Alpha")) /\
  inst_id (sampleInstance 1 "a" "Alpha") = "a".
Proof.
  split; [reflexivity|].
  exact (proj1 (getInstanceById_found_is_first sampleCollectionWithNull "a"
                  (sampleInstance 1 "a" "Alpha") eq_refl)).
Defined.

(** X3: When the lookup goes wrong, and when it reports "not found": it
    dereferences a null pointer exactly when the collection is empty or
    holds a null pointer with no instance of that identifier before it;
    it returns the null pointer exactly when the collection is not
    empty, holds no null pointer and no instance has the identifier. *)
Theorem getInstanceById_failure_modes self instId :
  (getInstanceById self instId = NullDereference <->
   m_instances self = [] \/
   exists before after,
     m_instances self = before ++ None :: after /\
     Forall (fun p => exists j, p = Some j /\ inst_id j <> instId) before) /\
  (getInstanceById self instId = Returns None <->
   m_instances self <> [] /\
   Forall (fun p => exists j, p = Some j /\ inst_id j <> instId)
          (m_instances self)).
Proof.
  assert (Hno : forall l,
             Forall (fun p => exists j, p = Some j /\ inst_id j <> instId) l <->
             Forall (fun p => stopsAt instId p = false) l).
  { intros l. apply Forall_proper; [|done]. intros [j|]; cbn.
    - rewrite String.eqb_neq. split; [now intros (? & [= <-] & ?)|eauto].
    - split; [now intros (? & ? & _)|done]. }
  rewrite getInstanceById_outcome.
  destruct (m_instances self) as [|x l] eqn:El.
  { split; [split; [now left|done]|]. split; [done|now intros [? _]]. }
  destruct (List.find (stopsAt instId) (x :: l)) as [[j|]|] eqn:Hf.
  - split; split; try done.
    + intros [?|(before & after & E & Hb)]; [done|]. exfalso.
      apply Hno in Hb. rewrite E, (find_app_none _ _ _ Hb) in Hf. done.
    + intros [_ H]. apply Hno, find_none_Forall in H. congruence.
  - split; split; try done.
    + intros _. right. apply find_split in Hf as (before & after & E & _ & Hb).
      exists before, after. split; [exact E|now apply Hno].
    + intros [_ H]. apply Hno, find_none_Forall in H. congruence.
  - split; split; try done.
    + intros [?|(before & after & E & Hb)]; [done|]. exfalso.
      apply Hno in Hb. rewrite E, (find_app_none _ _ _ Hb) in Hf. done.
    + intros _. split; [done|]. now apply Hno, find_none_Forall.
Qed.

Lemma getInstanceById_failure_modes_witness :
  (m_instances sampleCollectionWithNull = [] \/
   exists before after,
     m_instances sampleCollectionWithNull = before ++ None :: after /\
     Forall (fun p => exists j, p = Some j /\ inst_id j <> "b") before) /\
  getInstanceById sampleCollectionWithNull "b" = NullDereference.
Proof.
  assert (H : m_instances sampleCollectionWithNull = [] \/
              exists before after,
                m_instances sampleCollectionWithNull = before ++ None :: after /\
                Forall (fun p => exists j, p = Some j /\ inst_id j <> "b")
                       before).
  { right. exists [Some (sampleInstance 1 "a" "Alpha")],
                  [Some (sampleInstance 2 "b" "Beta")].
    split; [reflexivity|]. repeat constructor.
    eexists. split; [reflexivity|discriminate]. }
  split; [exact H|].
  exact (proj2 (proj1 (getInstanceById_failure_modes
                         sampleCollectionWithNull "b")) H).
Defined.

(** X4: [add] does not disturb a lookup that succeeds: the instance found
    before is still the one found after any pointer, null or not, has
    been added. *)
Theorem add_keeps_found_instance self (t : InstancePtr) instId (i : Instance) :
  getInstanceById self instId = Returns (Some i) ->
  getInstanceById (add t self).1.2 instId = Returns (Some i).
Proof.
  rewrite !getInstanceById_outcome. cbn.
  destruct (m_instances self) as [|x l] eqn:El; [done|].
  destruct (List.find (stopsAt instId) (x :: l)) as [[j|]|] eqn:Hf; [|done..].
  intros [= ->].
  change ((x :: l) ++ [t]) with (x :: (l ++ [t])).
  change (x :: (l ++ [t])) with ((x :: l) ++ [t]) at 2.
  now rewrite (find_app_found _ _ [t] _ Hf).
Qed.

Lemma add_keeps_found_instance_witness :
  getInstanceById sampleCollection "a"
  = Returns (Some (sampleInstance 1 "a" "Alpha")) /\
  getInstanceById (add None sampleCollection).1.2 "a"
  = Returns (Some (sampleInstance 1 "a" "Alpha")).
Proof.
  split; [reflexivity|].
  exact (add_keeps_found_instance sampleCollection None "a"
           (sampleInstance 1 "a" "Alpha") eq_refl).
Defined.

(** X5: An instance added to a collection that holds no null pointer and no
    instance with its identifier is found under that identifier; this
    holds for the empty collection too. *)
Theorem add_then_getInstanceById self (i : Instance) :
  Forall (fun p => exists j, p = Some j /\ inst_id j <> inst_id i)
         (m_instances self) ->
  getInstanceById (add (Some i) self).1.2 (inst_id i) = Returns (Some i).
Proof.
  intros Hall. rewrite getInstanceById_outcome. cbn.
  assert (Hf : List.find (stopsAt (inst_id i)) (m_instances self ++ [Some i])
               = Some (Some i)).
  { rewrite find_app_none.
    - cbn. now rewrite String.eqb_refl.
    - eapply Forall_impl; [exact Hall|]. intros p (j & -> & Hj). cbn.
      now apply String.eqb_neq. }
  rewrite Hf. destruct (m_instances self); reflexivity.
Qed.

Lemma add_then_getInstanceById_witness :
  Forall (fun p => exists j, p = Some j /\ inst_id j <> "c")
         (m_instances sampleCollection) /\
  getInstanceById (add (Some (sampleInstance 3 "c" "Gamma"))
                       sampleCollection).1.2 "c"
  = Returns (Some (sampleInstance 3 "c" "Gamma")).
Proof.
  assert (H : Forall (fun p => exists j, p = Some j /\
                                         inst_id j
                                         <> inst_id (sampleInstance 3 "c" "Gamma"))
                     (m_instances sampleCollection)).
  { repeat constructor; eexists; (split; [reflexivity|discriminate]). }
  split; [exact H|].
  exact (add_then_getInstanceById sampleCollection
           (sampleInstance 3 "c" "Gamma") H).
Defined.

(** X6: [add] takes a null pointer as it takes any other; from then on every
    lookup that did not already succeed dereferences it. *)
Theorem add_null_breaks_failed_lookup self instId :
  (forall i, getInstanceById self instId <> Returns (Some i)) ->
  getInstanceById (add None self).1.2 instId = NullDereference.
Proof.
  intros Hnot. rewrite getInstanceById_outcome in Hnot.
  rewrite getInstanceById_outcome. cbn.
  destruct (m_instances self) as [|x l] eqn:El; [reflexivity|].
  change ((x :: l) ++ [None]) with (x :: (l ++ [None])).
  change (x :: (l ++ [None])) with ((x :: l) ++ [None]) at 2.
  destruct (List.find (stopsAt instId) (x :: l)) as [[j|]|] eqn:Hf.
  - now destruct (Hnot j).
  - now rewrite (find_app_found _ _ [None] _ Hf).
  - apply find_none_Forall in Hf. now rewrite (find_app_none _ _ _ Hf).
Qed.

Lemma add_null_breaks_failed_lookup_witness :
  (forall i, getInstanceById sampleCollection "zz" <> Returns (Some i)) /\
  getInstanceById (add None sampleCollection).1.2 "zz" = NullDereference.
Proof.
  assert (H : forall i, getInstanceById sampleCollection "zz"
                        <> Returns (Some i)) by (intros i; discriminate).
  split; [exact H|].
  exact (add_null_breaks_failed_lookup sampleCollection "zz" H).
Defined.
End Lookup.

(** ** Change notifications and [clear] *)

Section Notify.
Implicit Types (self : InstanceList) (inst : option positive).
Implicit Types (l rest : list InstancePtr) (p : InstancePtr).

(** The loop from index [i]: one signal for the first pointer with the
    address, none when there is no such pointer. *)
Lemma propertiesChanged_loop_first inst (i : Z) rest :
  propertiesChanged_loop inst i rest
  = match list_find (fun p => inst = inst_obj <$> p) rest with
    | Some (k, _) => [Emit (instanceChanged (i + Z.of_nat k))]
    | None => []
    end.
Proof.
  revert i. induction rest as [|p rest IH]; intros i; cbn; [done|].
  case_bool_decide as Hp.
  - rewrite decide_True by done. cbn. now rewrite Z.add_0_r.
  - rewrite decide_False by done. rewrite IH.
    destruct (list_find _ rest) as [[k q]|]; cbn; [|done].
    do 3 f_equal. lia.
Qed.

(** X7: [propertiesChanged] emits [instanceChanged] with the index of the
    first entry whose object is the one it is called with. *)
Theorem propertiesChanged_reports_first_index self inst (k : nat) p :
  m_instances self !! k = Some p ->
  inst = inst_obj <$> p ->
  (forall j q, m_instances self !! j = Some q -> (j < k)%nat ->
               inst <> inst_obj <$> q) ->
  propertiesChanged inst self = [Emit (instanceChanged (Z.of_nat k))] /\
  0 <= Z.of_nat k < count self.
Proof.
  intros Hk Hp Hfirst. split.
  - unfold propertiesChanged. rewrite propertiesChanged_loop_first.
    assert (E : list_find (fun p => inst = inst_obj <$> p) (m_instances self)
                = Some (k, p)).
    { apply list_find_Some. repeat split; [exact Hk|exact Hp|].
      intros j q Hj Hlt. now apply (Hfirst j q). }
    now rewrite E.
  - apply lookup_lt_Some in Hk. unfold count. lia.
Qed.

Lemma propertiesChanged_reports_first_index_witness :
  (m_instances sampleCollection !! 1%nat
   = Some (Some (sampleInstance 2 "b" "Beta")) /\
   Some 2%positive = inst_obj <$> Some (sampleInstance 2 "b" "Beta")) /\
  propertiesChanged (Some 2%positive) sampleCollection
  = [Emit (instanceChanged 1)].
Proof.
  split; [split; reflexivity|].
  refine (proj1 (propertiesChanged_reports_first_index sampleCollection
                   (Some 2%positive) 1 (Some (sampleInstance 2 "b" "Beta"))
                   eq_refl eq_refl _)).
  intros j q Hj Hlt. destruct j as [|j]; [|lia].
  injection Hj as <-. discriminate.
Defined.

(** X8: [propertiesChanged] emits nothing exactly when no entry of the
    collection is the object it is called with; otherwise it emits one
    signal, whose index lies within the collection. *)
Theorem propertiesChanged_dropped_iff_absent self inst :
  (propertiesChanged inst self = [] <->
   forall p, p ∈ m_instances self -> inst <> inst_obj <$> p) /\
  (forall e, e ∈ propertiesChanged inst self ->
     exists k p, propertiesChanged inst self = [e] /\
                 e = Emit (instanceChanged (Z.of_nat k)) /\
                 m_instances self !! k = Some p /\ inst = inst_obj <$> p).
Proof.
  unfold propertiesChanged. rewrite propertiesChanged_loop_first.
  destruct (list_find _ (m_instances self)) as [[k q]|] eqn:E.
  - apply list_find_Some in E as (Hk & Hq & _). split.
    + split; [done|]. intros H. exfalso.
      apply (H q); [|exact Hq]. now apply list_elem_of_lookup_2 in Hk.
    + intros e He. apply list_elem_of_singleton in He as ->.
      exists k, q. now rewrite Z.add_0_l.
  - apply list_find_None in E. rewrite Forall_forall in E. split.
    + split; [|done]. intros _. exact E.
    + intros e He. now apply elem_of_nil in He.
Qed.

Lemma propertiesChanged_dropped_iff_absent_witness :
  (forall p, p ∈ m_instances sampleCollection ->
             Some 7%positive <> inst_obj <$> p) /\
  propertiesChanged (Some 7%positive) sampleCollection = [].
Proof.
  assert (H : forall p, p ∈ m_instances sampleCollection ->
                        Some 7%positive <> inst_obj <$> p).
  { intros p Hp. cbn in Hp. rewrite !elem_of_cons, elem_of_nil in Hp.
    destruct Hp as [->|[->|[]]]; discriminate. }
  split; [exact H|].
  exact (proj2 (proj1 (propertiesChanged_dropped_iff_absent
                         sampleCollection (Some 7%positive))) H).
Defined.

(** X9: An instance added to a collection that does not hold its object is
    reported by [propertiesChanged] at the index [add] returned. *)
Theorem add_then_propertiesChanged self (i : Instance) :
  (forall p, p ∈ m_instances self -> Some (inst_obj i) <> inst_obj <$> p) ->
  propertiesChanged (Some (inst_obj i)) (add (Some i) self).1.2
  = [Emit (instanceChanged (add (Some i) self).1.1)].
Proof.
  intros Hfresh. unfold propertiesChanged. rewrite propertiesChanged_loop_first.
  cbn [add fst snd m_instances].
  assert (E : list_find (fun p => Some (inst_obj i) = inst_obj <$> p)
                        (m_instances self ++ [Some i])
              = Some (length (m_instances self), Some i)).
  { apply list_find_Some. repeat split.
    - rewrite lookup_app_r by lia. now rewrite Nat.sub_diag.
    - intros j q Hj Hlt. rewrite lookup_app_l in Hj by exact Hlt.
      apply Hfresh. now apply list_elem_of_lookup_2 in Hj. }
  rewrite E. unfold count. cbn. rewrite length_app. cbn.
  do 3 f_equal. lia.
Qed.

Lemma add_then_propertiesChanged_witness :
  (forall p, p ∈ m_instances sampleCollection ->
             Some (inst_obj (sampleInstance 3 "c" "Gamma")) <> inst_obj <$> p) /\
  propertiesChanged (Some 3%positive)
    (add (Some (sampleInstance 3 "c" "Gamma")) sampleCollection).1.2
  = [Emit (instanceChanged 2)].
Proof.
  assert (H : forall p, p ∈ m_instances sampleCollection ->
                        Some (inst_obj (sampleInstance 3 "c" "Gamma"))
                        <> inst_obj <$> p).
  { intros p Hp. cbn in Hp. rewrite !elem_of_cons, elem_of_nil in Hp.
    destruct Hp as [->|[->|[]]]; discriminate. }
  split; [exact H|].
  exact (add_then_propertiesChanged sampleCollection
           (sampleInstance 3 "c" "Gamma") H).
Defined.

(** X10: [clear] empties the collection, whatever it held, keeps the root
    directory and emits [invalidated] once.  Afterwards every change
    notification is dropped, every lookup dereferences the null pointer,
    the next [add] returns index 0, and [loadList] does what it would
    have done without the [clear]. *)
Theorem clear_then self (t : InstancePtr) inst env :
  m_instances (clear self).1 = [] /\
  m_instDir (clear self).1 = m_instDir self /\
  count (clear self).1 = 0 /\
  signals (clear self).2 = [invalidated] /\
  propertiesChanged inst (clear self).1 = [] /\
  (forall instId, getInstanceById (clear self).1 instId = NullDereference) /\
  (add t (clear self).1).1.1 = 0 /\
  m_instances (add t (clear self).1).1.2 = [t] /\
  loadList env (clear self).1 = loadList env self.
Proof. repeat split. Qed.
End Notify.

(** ** The group file, on every path *)

Section GroupFilePaths.
Implicit Types (env : Env) (self : InstanceList).
Implicit Types (m groupMap : gmap string string) (events : list Event).

(** Either the file is given up on, and the mapping is handed back as it
    came with at most one line logged, or the file is valid. *)
Lemma loadGroupList_cases env self :
  (exists logged,
      (forall m, loadGroupList env self m = (m, logged)) /\
      (length logged <= 1)%nat /\
      Forall (fun e => exists level text, e = Log level text) logged) \/
  (exists groupMapping, validGroupFile env self groupMapping).
Proof.
  destruct (QFileInfo_exists env (m_instDir self +:+ "/instgroups.json"))
    eqn:Hex; cycle 1.
  { left. exists []. repeat split; [|cbn; lia|constructor].
    intros m. unfold loadGroupList. now rewrite Hex. }
  destruct (QFile_readAll env (m_instDir self +:+ "/instgroups.json"))
    as [jsonStr|] eqn:Hrd; cycle 1.
  { left. eexists. repeat split.
    - intros m. unfold loadGroupList. rewrite Hex, Hrd. reflexivity.
    - cbn. lia.
    - repeat constructor. now eexists _, _. }
  destruct (QJsonDocument_fromJson env jsonStr) as [es off|jsonDoc] eqn:Hp.
  { left. eexists. repeat split.
    - intros m. unfold loadGroupList. rewrite Hex, Hrd, Hp. reflexivity.
    - cbn. lia.
    - repeat constructor. now eexists _, _. }
  destruct jsonDoc as [rootObj| |].
  2,3: left; eexists; repeat split;
    [intros m; unfold loadGroupList; rewrite Hex, Hrd, Hp; reflexivity
    |cbn; lia|repeat constructor; now eexists _, _].
  destruct (QVariant_toInt env (value rootObj "formatVersion")
            =? GROUP_FILE_FORMAT_VERSION) eqn:Hv; cycle 1.
  { left. exists []. repeat split; [|cbn; lia|constructor].
    intros m. unfold loadGroupList. rewrite Hex, Hrd, Hp. cbn.
    now rewrite Hv. }
  destruct (value rootObj "groups") as [| | | | |groupMapping|] eqn:Hg.
  1-5,7: left; eexists; repeat split;
    [intros m; unfold loadGroupList; rewrite Hex, Hrd, Hp; cbn;
     rewrite Hv, Hg; reflexivity
    |cbn; lia|repeat constructor; now eexists _, _].
  right. exists groupMapping, rootObj.
  split; [split; [exact Hex|now exists jsonStr]|].
  split; [now apply Z.eqb_eq|exact Hg].
Qed.

(** The warnings of the loop over the groups: one for each group that
    fails a check, in order, each naming its group. *)
Lemma loadGroupList_groups_warnings (groupMapping : QJsonObject) m events :
  exists more,
    (loadGroupList_groups groupMapping (m, events)).2 = events ++ more /\
    Forall2 (fun (iter : string * QJsonValue) e =>
               exists rest, e = qWarning ("Group '" +:+ iter.1 +:+ rest))
            (List.filter (fun iter => negb (wellFormedGroup iter.2))
                         groupMapping)
            more.
Proof.
  revert m events.
  induction groupMapping as [|iter gs IH]; intros m events.
  - exists []. cbn. split; [now rewrite app_nil_r|constructor].
  - unfold loadGroupList_groups in *. cbn [fold_left List.filter].
    unfold loadGroupList_group at 2. unfold wellFormedGroup at 1. cbn.
    destruct (isObject iter.2) eqn:Ho; cbn.
    + destruct (isArray (value (toObject iter.2) "instances")) eqn:Ha; cbn.
      * apply IH.
      * destruct (IH m (events ++
                    [qWarning ("Group '" +:+ iter.1 +:+
                               "' in the group list is invalid. " +:+
                               "It should contain an array " +:+
                               "called 'instances'.")]))
          as (more & -> & Hmore).
        eexists (_ :: more). rewrite <- app_assoc. split; [reflexivity|].
        constructor; [|exact Hmore]. now eexists.
    + destruct (IH m (events ++
                  [qWarning ("Group '" +:+ iter.1 +:+
                             "' in the group list should be an object.")]))
        as (more & -> & Hmore).
      eexists (_ :: more). rewrite <- app_assoc. split; [reflexivity|].
      constructor; [|exact Hmore]. now eexists.
Qed.

Lemma assignAll_idempotent (pairs : list (string * string)) m :
  assignAll pairs (assignAll pairs m) = assignAll pairs m.
Proof.
  apply map_eq. intros k.
  destruct (decide (k ∈ pairs.*1)) as [Hin|Hnin].
  - destruct (last_assignment _ _ Hin) as (l1 & g & l2 & -> & Hl).
    now rewrite !assignAll_last.
  - now rewrite !assignAll_notin.
Qed.

Lemma loadGroupList_events_are_logs env self m :
  Forall (fun e => exists level text, e = Log level text)
         (loadGroupList env self m).2.
Proof.
  destruct (loadGroupList_cases env self) as [(logged & E & _ & Hl)|[gs Hv]].
  - now rewrite E.
  - rewrite (loadGroupList_valid _ _ _ _ Hv).
    destruct (loadGroupList_groups_warnings gs m []) as (more & -> & Hm).
    cbn. clear -Hm. induction Hm as [|g e gs' more' (rest & ->) _ IH];
      constructor; [now eexists _, _|exact IH].
Qed.

(** X11: [loadGroupList] only writes to the log: it emits no signal and calls
    no loader, on whatever path it returns. *)
Theorem loadGroupList_only_logs env self m :
  signals (loadGroupList env self m).2 = [] /\
  loaderCalls (loadGroupList env self m).2 = [] /\
  Forall (fun e => exists level text, e = Log level text)
         (loadGroupList env self m).2.
Proof.
  pose proof (loadGroupList_events_are_logs env self m) as H.
  split; [|split; [|exact H]].
  - induction H as [|e l (level & text & ->) _ IH]; [done|exact IH].
  - induction H as [|e l (level & text & ->) _ IH]; [done|exact IH].
Qed.




(** X13: [loadGroupList] never takes an entry out of the mapping it is given:
    a key that was mapped is still mapped afterwards, on every path; and
    with a valid file, a key that no group declares keeps its group. *)
Theorem loadGroupList_keeps_entries env self m :
  (forall k, is_Some (m !! k) -> is_Some ((loadGroupList env self m).1 !! k)) /\
  (forall groupMapping k,
      validGroupFile env self groupMapping ->
      k ∉ (declaredPairs groupMapping).*1 ->
      (loadGroupList env self m).1 !! k = m !! k).
Proof.
  split.
  - intros k Hk.
    destruct (loadGroupList_cases env self) as [(logged & E & _)|[gs Hv]].
    + now rewrite E.
    + rewrite (loadGroupList_valid _ _ _ _ Hv), loadGroupList_groups_map.
      destruct (assignAll (declaredPairs gs) m !! k) eqn:E; [done|].
      apply assignAll_lookup_None in E as [_ E]. rewrite E in Hk.
      now destruct Hk.
  - intros gs k Hv Hk.
    rewrite (loadGroupList_valid _ _ _ _ Hv), loadGroupList_groups_map.
    now apply assignAll_notin.
Qed.

Lemma loadGroupList_keeps_entries_witness :
  (validGroupFile env_oneMalformedGroup (InstanceList_new "instances")
     [("bad", JObject []);
      ("good", sampleGroup [JString "a"; JString "b"])] /\
   "z" ∉ (declaredPairs
            [("bad", JObject []);
             ("good", sampleGroup [JString "a"; JString "b"])]).*1) /\
  (loadGroupList env_oneMalformedGroup (InstanceList_new "instances")
     {["z" := "old"]}).1 !! "z" = ({["z" := "old"]} : gmap string string) !! "z".
Proof.
  assert (H : "z" ∉ (declaredPairs
                       [("bad", JObject []);
                        ("good", sampleGroup [JString "a"; JString "b"])]).*1).
  { cbn. rewrite !not_elem_of_cons. repeat split; try discriminate.
    apply not_elem_of_nil. }
  split; [split; [apply sampleEnv_validGroupFile|exact H]|].
  exact (proj2 (loadGroupList_keeps_entries
                  env_oneMalformedGroup (InstanceList_new "instances")
                  {["z" := "old"]})
           _ "z" (sampleEnv_validGroupFile _ _ _) H).
Defined.

(** X14: Reading the same file a second time into the mapping changes
    nothing. *)
Theorem loadGroupList_idempotent env self m :
  (loadGroupList env self (loadGroupList env self m).1).1
  = (loadGroupList env self m).1.
Proof.
  destruct (loadGroupList_cases env self) as [(logged & E & _)|[gs Hv]].
  - now rewrite !E.
  - rewrite !(loadGroupList_valid _ _ _ _ Hv), !loadGroupList_groups_map.
    apply assignAll_idempotent.
Qed.
End GroupFilePaths.

(** ** What [loadList] leaves behind *)

Section Reload.
Implicit Types (env : Env) (self : InstanceList).
Implicit Types (groupMap : gmap string string) (events : list Event).
Implicit Types (instances : list InstancePtr) (entries : list string).

Lemma signals_app events1 events2 :
  signals (events1 ++ events2) = signals events1 ++ signals events2.
Proof. apply omap_app. Qed.

Lemma logLines_app events1 events2 :
  logLines (events1 ++ events2) = logLines events1 ++ logLines events2.
Proof. apply omap_app. Qed.

Lemma logLines_of_logs events :
  Forall (fun e => exists level text, e = Log level text) events ->
  length (logLines events) = length events /\ signals events = [].
Proof.
  induction 1 as [|e l (level & text & ->) _ [IH1 IH2]]; [done|].
  split; [|exact IH2].
  change (S (length (logLines l)) = S (length l)). now rewrite IH1.
Qed.

(** One pass of the scan emits no signal, and writes one line exactly
    when it hands the entry to the loader. *)
Lemma loadList_entry_events env groupMap subDir instances events :
  let r := loadList_entry env groupMap subDir (instances, events) in
  signals r.2 = signals events /\
  length (logLines r.2)
  = (length (logLines events) + (if hasMarker env subDir then 1 else 0))%nat /\
  (hasMarker env subDir = false -> r = (instances, events)).
Proof.
  unfold loadList_entry, hasMarker. cbn.
  destruct (QFileInfo_exists env (PathCombine env subDir "instance.cfg")); cbn.
  - destruct (loadInstance env subDir) as [[] [i|]]; cbn;
      rewrite !signals_app, !logLines_app, !length_app; cbn;
      rewrite !app_nil_r; (split; [done|split; [lia|done]]).
  - unfold signals, logLines. split; [done|split; [lia|done]].
Qed.

Lemma loadList_scan_events env groupMap entries instances events :
  let r := loadList_scan env groupMap entries (instances, events) in
  signals r.2 = signals events /\
  length (logLines r.2)
  = (length (logLines events)
     + length (List.filter (hasMarker env) entries))%nat /\
  (Forall (fun subDir => hasMarker env subDir = false) entries ->
   r = (instances, events)).
Proof.
  revert instances events.
  induction entries as [|subDir entries IH]; intros instances events.
  - unfold loadList_scan. cbn [fold_left List.filter fst snd length].
    split; [done|split; [lia|done]].
  - unfold loadList_scan in *. cbn [fold_left List.filter].
    destruct (loadList_entry_events env groupMap subDir instances events)
      as (H1 & H2 & H3).
    destruct (loadList_entry env groupMap subDir (instances, events))
      as [instances' events'] eqn:E.
    cbn [fst snd] in H1, H2.
    destruct (IH instances' events') as (IH1 & IH2 & IH3).
    cbn zeta in IH1, IH2, IH3. rewrite IH1, IH2, H1, H2.
    split; [done|split].
    + destruct (hasMarker env subDir); cbn; lia.
    + intros Hall. apply Forall_cons in Hall as [Hd Hall].
      rewrite (IH3 Hall). now apply H3.
Qed.

(** X15: [loadList] never stores a null pointer; so after it a lookup goes
    wrong only if nothing was loaded at all. *)
Theorem loadList_stores_no_null_pointer env self :
  Forall is_Some (m_instances (loadList env self).1.2) /\
  (forall instId,
      getInstanceById (loadList env self).1.2 instId = NullDereference <->
      m_instances (loadList env self).1.2 = []).
Proof.
  assert (H : Forall is_Some (m_instances (loadList env self).1.2)).
  { rewrite loadList_instances. apply Forall_fmap, Forall_true.
    intros i. now eexists. }
  split; [exact H|]. intros instId. rewrite getInstanceById_outcome.
  destruct (m_instances (loadList env self).1.2) as [|x l]; [done|].
  split; [|done].
  destruct (List.find (stopsAt instId) (x :: l)) as [[j|]|] eqn:Hf; try done.
  apply find_some in Hf as [Hin _]. apply list_elem_of_In in Hin.
  rewrite Forall_forall in H. now destruct (H _ Hin).
Qed.

(** X16: [loadList] emits exactly one signal, [invalidated], as its last
    event, however many instances it loaded; and besides what
    [loadGroupList] logged it writes exactly one line for each entry it
    handed to the loader. *)
Theorem loadList_emits_invalidated_once env self :
  signals (loadList env self).2 = [invalidated] /\
  last (loadList env self).2 = Some (Emit invalidated) /\
  length (logLines (loadList env self).2)
  = (length (loadGroupList env self ∅).2
     + length (List.filter (hasMarker env)
                           (QDirIterator_entries env (m_instDir self))))%nat.
Proof.
  destruct (loadList_scan_events env (loadGroupList env self ∅).1
              (QDirIterator_entries env (m_instDir self)) []
              (loadGroupList env self ∅).2) as (H1 & H2 & _).
  cbn zeta in H1, H2.
  destruct (logLines_of_logs _ (loadGroupList_events_are_logs env self ∅))
    as [Hlen Hsig].
  unfold loadList. cbn [fst snd].
  rewrite signals_app, logLines_app, length_app, last_snoc, H1, H2, Hsig, Hlen.
  cbn. repeat split. lia.
Qed.

(** X17: Without a group file [loadList] still loads: the collection holds
    the instances exactly as the loader delivered them, and nothing is
    logged about groups. *)
Theorem loadList_without_group_file env self :
  QFileInfo_exists env (m_instDir self +:+ "/instgroups.json") = false ->
  loadGroupList env self ∅ = (∅, []) /\
  m_instances (loadList env self).1.2
  = Some <$> omap (adopted env) (QDirIterator_entries env (m_instDir self)).
Proof.
  intros Hex.
  assert (E : loadGroupList env self ∅ = (∅, [])).
  { unfold loadGroupList. now rewrite Hex. }
  split; [exact E|]. rewrite loadList_instances, E. cbn.
  apply list_fmap_ext. intros k i _. unfold assignGroup.
  now rewrite lookup_empty.
Qed.

Lemma loadList_without_group_file_witness :
  QFileInfo_exists env_firstScan
    (m_instDir (InstanceList_new "instances") +:+ "/instgroups.json") = false /\
  m_instances (loadList env_firstScan (InstanceList_new "instances")).1.2
  = [Some (sampleInstance 1 "a" "Alpha")].
Proof.
  split; [reflexivity|].
  exact (proj2 (loadList_without_group_file env_firstScan
                  (InstanceList_new "instances") eq_refl)).
Defined.

(** X18: Every instance in the collection after [loadList] is one the loader
    delivered, unchanged but for its group: the group is the one the
    group file gives for the instance's id, and the loader's own when
    the file gives none. *)
Theorem loadList_sets_group_by_id env self (r : Instance) :
  Some r ∈ m_instances (loadList env self).1.2 ->
  exists subDir i,
    subDir ∈ QDirIterator_entries env (m_instDir self) /\
    adopted env subDir = Some i /\
    inst_obj r = inst_obj i /\ inst_id r = inst_id i /\
    inst_name r = inst_name i /\ inst_rootDir r = inst_rootDir i /\
    inst_group r
    = default (inst_group i) ((loadGroupList env self ∅).1 !! inst_id i).
Proof.
  rewrite loadList_instances. intros Hr.
  apply list_elem_of_fmap in Hr as (i & [= ->] & Hi).
  apply list_elem_of_omap in Hi as (subDir & Hin & Had).
  exists subDir, i. split; [exact Hin|]. split; [exact Had|].
  unfold assignGroup.
  destruct ((loadGroupList env self ∅).1 !! inst_id i); repeat split.
Qed.

Lemma loadList_sets_group_by_id_witness :
  Some (setGroup "g" (sampleInstance 5 "e" "Epsilon"))
    ∈ m_instances (loadList env_mixedCandidates
                     (InstanceList_new "instances")).1.2 /\
  exists subDir i,
    subDir ∈ QDirIterator_entries env_mixedCandidates
               (m_instDir (InstanceList_new "instances")) /\
    adopted env_mixedCandidates subDir = Some i /\
    inst_obj (setGroup "g" (sampleInstance 5 "e" "Epsilon")) = inst_obj i /\
    inst_id (setGroup "g" (sampleInstance 5 "e" "Epsilon")) = inst_id i /\
    inst_name (setGroup "g" (sampleInstance 5 "e" "Epsilon")) = inst_name i /\
    inst_rootDir (setGroup "g" (sampleInstance 5 "e" "Epsilon"))
    = inst_rootDir i /\
    inst_group (setGroup "g" (sampleInstance 5 "e" "Epsilon"))
    = default (inst_group i)
        ((loadGroupList env_mixedCandidates
            (InstanceList_new "instances") ∅).1 !! inst_id i).
Proof.
  assert (H : Some (setGroup "g" (sampleInstance 5 "e" "Epsilon"))
                ∈ m_instances (loadList env_mixedCandidates
                                 (InstanceList_new "instances")).1.2).
  { right. left. }
  split; [exact H|].
  exact (loadList_sets_group_by_id env_mixedCandidates
           (InstanceList_new "instances") _ H).
Defined.

(** X19: When no entry of the directory holds the marker file (an empty
    directory included), [loadList] leaves an empty collection, calls no
    loader and adds nothing to the log: its events are those of
    [loadGroupList] followed by [invalidated]. *)
Theorem loadList_without_candidates env self :
  Forall (fun subDir => hasMarker env subDir = false)
         (QDirIterator_entries env (m_instDir self)) ->
  loadList env self
  = (NoError,
     {| m_instDir := m_instDir self; m_instances := [] |},
     (loadGroupList env self ∅).2 ++ [Emit invalidated]).
Proof.
  intros Hall.
  destruct (loadList_scan_events env (loadGroupList env self ∅).1
              (QDirIterator_entries env (m_instDir self)) []
              (loadGroupList env self ∅).2) as (_ & _ & H).
  cbn zeta in H. unfold loadList. now rewrite (H Hall).
Qed.

Lemma loadList_without_candidates_witness :
  Forall (fun subDir => hasMarker (sampleEnv None []) subDir = false)
         (QDirIterator_entries (sampleEnv None [])
            (m_instDir (InstanceList_new "instances"))) /\
  loadList (sampleEnv None []) (InstanceList_new "instances")
  = (NoError, InstanceList_new "instances", [Emit invalidated]).
Proof.
  assert (H : Forall (fun subDir => hasMarker (sampleEnv None []) subDir = false)
                     (QDirIterator_entries (sampleEnv None [])
                        (m_instDir (InstanceList_new "instances"))))
    by constructor.
  split; [exact H|].
  exact (loadList_without_candidates (sampleEnv None [])
           (InstanceList_new "instances") H).
Defined.

(** X20: A change notification for an object that the last [loadList] did
    not take over, such as an instance of an earlier load, is dropped. *)
Theorem loadList_then_propertiesChanged_stale env self (obj : positive) :
  (forall subDir i,
      subDir ∈ QDirIterator_entries env (m_instDir self) ->
      adopted env subDir = Some i -> inst_obj i <> obj) ->
  propertiesChanged (Some obj) (loadList env self).1.2 = [].
Proof.
  intros Hstale. unfold propertiesChanged.
  rewrite propertiesChanged_loop_first.
  destruct (list_find _ _) as [[k q]|] eqn:E; [|done].
  apply list_find_Some in E as (Hk & Hq & _).
  apply list_elem_of_lookup_2 in Hk. rewrite loadList_instances in Hk.
  apply list_elem_of_fmap in Hk as (i & -> & Hi).
  apply list_elem_of_omap in Hi as (subDir & Hin & Had).
  cbn in Hq. injection Hq as Hq.
  exfalso. apply (Hstale subDir i Hin Had).
  unfold assignGroup in Hq.
  destruct ((loadGroupList env self ∅).1 !! inst_id i); now rewrite Hq.
Qed.

Lemma loadList_then_propertiesChanged_stale_witness :
  (forall subDir i,
      subDir ∈ QDirIterator_entries env_secondScan
                 (m_instDir (InstanceList_new "instances")) ->
      adopted env_secondScan subDir = Some i -> inst_obj i <> 1%positive) /\
  propertiesChanged (Some 1%positive)
    (loadList env_secondScan
       (loadList env_firstScan (InstanceList_new "instances")).1.2).1.2 = [].
Proof.
  assert (H : forall subDir i,
             subDir ∈ QDirIterator_entries env_secondScan
                        (m_instDir (InstanceList_new "instances")) ->
             adopted env_secondScan subDir = Some i ->
             inst_obj i <> 1%positive).
  { intros subDir i Hin Had. apply list_elem_of_singleton in Hin as ->.
    injection Had as <-. discriminate. }
  split; [exact H|].
  exact (loadList_then_propertiesChanged_stale env_secondScan
           (loadList env_firstScan (InstanceList_new "instances")).1.2
           1%positive H).
Defined.
End Reload.
